(** * A shallow embedding of the lottery bot (src/bot.py)

    The bot keeps a dictionary of active lotteries, sells tickets with
    [!buy], draws a winner when a lottery's timer fires and writes the
    dictionary to a JSON file.  This development embeds the functions of
    [bot.py] that decide the lifecycle of a lottery and proves what the
    specification says about them, or states what the code does instead. *)

From Stdlib Require Import ZArith NArith List Ascii String Lia DecimalString DecimalZ.
From stdpp Require Import base option list gmap strings.
Import ListNotations.

Local Open Scope Z_scope.
Set Warnings "-register-all".

(** ** Python strings and the builtins the bot calls on them

    A Python [str] is a sequence of code points.  The model keeps the code
    points below 256 (ASCII and Latin-1), one [ascii] each. *)

Module PyStr.

Definition str : Type := list ascii.

(** A literal. *)
Definition lit (s : string) : str := list_ascii_of_string s.

(** [ord(c)] *)
Definition ord (c : ascii) : N := N_of_ascii c.

Definition in_range (lo hi : N) (c : ascii) : bool :=
  ((lo <=? ord c) && (ord c <=? hi))%N.

(** [c.isspace()]: TAB..CR, FS..US, space, NEL and NBSP are the white
    space characters below 256. *)
Definition isspace (c : ascii) : bool :=
  in_range 9 13 c || in_range 28 32 c
  || (ord c =? 133)%N || (ord c =? 160)%N.

(** [c.lower()]: A..Z and the Latin-1 capitals (all of U+00C0..U+00DE
    but the multiplication sign) move up by 32. *)
Definition lower_char (c : ascii) : ascii :=
  if in_range 65 90 c || (in_range 192 222 c && negb (ord c =? 215)%N)
  then ascii_of_N (ord c + 32) else c.

(** [c.upper()] on ASCII; [gen_ticket_code] applies it to hexadecimal
    digits only. *)
Definition upper_char (c : ascii) : ascii :=
  if in_range 97 122 c then ascii_of_N (ord c - 32) else c.

Definition lower (s : str) : str := map lower_char s.
Definition upper (s : str) : str := map upper_char s.

Fixpoint lstrip (s : str) : str :=
  match s with
  | c :: s' => if isspace c then lstrip s' else s
  | [] => []
  end.

Definition rstrip (s : str) : str := rev (lstrip (rev s)).

(** [s.strip()] *)
Definition strip (s : str) : str := rstrip (lstrip s).

Fixpoint startswith (s pre : str) : bool :=
  match pre, s with
  | [], _ => true
  | p :: pre', c :: s' => Ascii.eqb c p && startswith s' pre'
  | _ :: _, [] => false
  end.

(** [s.endswith(suf)] *)
Definition endswith (s suf : str) : bool := startswith (rev s) (rev suf).

(** [s[:-1]] *)
Definition drop_last (s : str) : str := removelast s.

(** [s[:n]] *)
Definition prefix (n : nat) (s : str) : str := firstn n s.

(** *** [int(s)] in base 10

    CPython first rewrites the string: a character from 127 on becomes a
    blank when it is white space and is not accepted otherwise (it is no
    decimal digit below 256). *)
Definition int_char (c : ascii) : ascii :=
  if (ord c <? 127)%N then c
  else if isspace c then " "%char else "?"%char.

(** The C-level white space that [int] skips on both sides. *)
Definition c_isspace (c : ascii) : bool :=
  in_range 9 13 c || (ord c =? 32)%N.

Definition digit_val (c : ascii) : option Z :=
  if in_range 48 57 c then Some (Z.of_N (ord c) - 48) else None.

Fixpoint skip_space (s : str) : str :=
  match s with
  | c :: s' => if c_isspace c then skip_space s' else s
  | [] => []
  end.

(** Digits after the first one; an underscore is accepted between two
    digits only.  Returns the value and what is left of the string. *)
Fixpoint scan_digits (acc : Z) (s : str) : option (Z * str) :=
  match s with
  | [] => Some (acc, [])
  | c :: s' =>
      match digit_val c with
      | Some d => scan_digits (10 * acc + d) s'
      | None =>
          if Ascii.eqb c "_" then
            match s' with
            | c2 :: s'' =>
                match digit_val c2 with
                | Some d => scan_digits (10 * acc + d) s''
                | None => None
                end
            | [] => None
            end
          else Some (acc, s)
      end
  end.

Definition take_sign (s : str) : bool * str :=
  match s with
  | c :: s' =>
      if Ascii.eqb c "+" then (false, s')
      else if Ascii.eqb c "-" then (true, s')
      else (false, s)
  | [] => (false, [])
  end.

(** A digit, more digits, white space up to the end. *)
Definition digits_value (body : str) : option Z :=
  match body with
  | c :: rest =>
      match digit_val c with
      | Some d =>
          match scan_digits d rest with
          | Some (n, tail) =>
              match skip_space tail with
              | [] => Some n
              | _ :: _ => None
              end
          | None => None
          end
      | None => None
      end
  | [] => None
  end.

(** The digit characters in the run of digits and underscores at the
    front, as the scan of [int] counts them. *)
Fixpoint count_digits (s : str) : nat :=
  match s with
  | c :: s' =>
      match digit_val c with
      | Some _ => S (count_digits s')
      | None => if Ascii.eqb c "_" then count_digits s' else O
      end
  | [] => O
  end.

(** [sys.get_int_max_str_digits()]: the bot leaves the default. *)
Definition MAX_STR_DIGITS : nat := 4300.

(** [int] raises [ValueError] as well when it counts more digits than
    that. *)
Definition int_digits (body : str) : option Z :=
  if Nat.leb (count_digits body) MAX_STR_DIGITS then digits_value body else None.

(** The parser proper, on the rewritten string. *)
Definition int_ascii (s : str) : option Z :=
  let '(neg, body) := take_sign (skip_space s) in
  (fun n => if neg then - n else n) <$> int_digits body.

(** [int(s)]; [None] stands for the [ValueError] it raises. *)
Definition py_int (s : str) : option Z := int_ascii (map int_char s).

End PyStr.

Import PyStr.

(** ** [parse_duration] (bot.py, lines 61-76) *)

Definition parse_duration (s0 : str) : option Z :=
  let s := lower (strip s0) in
  if endswith s (lit "s") then py_int (drop_last s)
  else if endswith s (lit "m") then (fun n => n * 60) <$> py_int (drop_last s)
  else if endswith s (lit "h") then (fun n => n * 3600) <$> py_int (drop_last s)
  else py_int s.

(** ** [gen_ticket_code] (bot.py, lines 78-81)

    [uuid.uuid4().hex[:8].upper()]: the argument is the 32 hexadecimal
    digits of the UUID that the random source hands out. *)

Definition gen_ticket_code (uuid_hex : str) : str := upper (prefix 8 uuid_hex).


(** ** The data model (bot.py, lines 30-38)

    Discord identifiers are integers; the bot stores [str(id)] and reads it
    back with [int(...)], which are inverse to each other, so the model
    keeps the integer.  [end_time] and [created_at] are ISO renderings of
    naive UTC datetimes; the model keeps the whole seconds since the epoch
    and, apart, the microseconds (0 to 999999). *)

Record Ticket := mkTicket {
  code : str;
  buyer_id : Z
}.

Record Lottery := mkLottery {
  item : str;
  seller_id : Z;
  ticket_price : str;
  max_tickets : option Z;
  image_url : option str;
  tickets : list Ticket;
  created_at : Z;
  created_at_us : Z;
  end_time : Z;
  end_time_us : Z;
  ticket_channel_id : Z;
  lottery_id : Z
}.

(** [lottery["tickets"]] replaced, every other key as it was. *)
Definition set_tickets (l : Lottery) (ts : list Ticket) : Lottery :=
  {| item := item l; seller_id := seller_id l; ticket_price := ticket_price l;
     max_tickets := max_tickets l; image_url := image_url l; tickets := ts;
     created_at := created_at l; created_at_us := created_at_us l;
     end_time := end_time l; end_time_us := end_time_us l;
     ticket_channel_id := ticket_channel_id l; lottery_id := lottery_id l |}.

(** The global [lotteries], keyed by the display message's id. *)
Abbreviation Store := (gmap Z Lottery).

(** ** What a command sends out *)

Inductive Outcome :=
| Winner (winner_id : Z) (winning_code : str) (won_item : str) (seller : Z)
| NoSale (unsold_item : str).

Inductive ReplyText :=
| Usage
| MissingParameters
| CouldntParseCommand
| MaxTicketsMustBeNumber
| CouldntParseDuration
| LotteryCreated
| CountMustBePositive
| UseDisplayChannel
| NoActiveLotteryInChannel
| LotteryNotFound
| NotEnoughTickets (tickets_left : Z)
| PurchasedNoDM (n : Z)
| Purchased (n : Z)
| NoLotteryWithThatId
| LotteryFinalized.

Inductive PyExc := OverflowError | ValueError | IndexError | MissingPermissions.

Inductive Event :=
| Reply (r : ReplyText)                      (* ctx.send *)
| Announce (o : Outcome)                     (* display_chan.send at the end *)
| DirectMessage (user : Z) (codes : list str)
| DisplayUpdated (msg_id : Z)
| TimerStarted (msg_id : Z) (seconds : Z)    (* create_task(lottery_timer_task) *)
| Saved (snapshot : Store)                   (* await save_data() *)
| Raised (e : PyExc).                        (* the command ends in an exception *)

(** ** [finalize_lottery] (bot.py, lines 169-220)

    [r] is the index that [random.choice] draws, the value of
    [_randbelow(len(tickets))]; the library keeps it below the length.
    The copies of the announcement for the seller's channel and the direct
    messages are sent inside [try] blocks after the outcome is fixed and are
    left out. *)

Definition finalize_lottery (lotteries : Store) (message_id : Z) (r : nat)
  : Store * list Event :=
  let lottery := lotteries !! message_id in
  let lotteries := delete message_id lotteries in   (* lotteries.pop(id, None) *)
  match lottery with
  | None => (lotteries, [])
  | Some lottery =>
      match tickets lottery with
      | [] => (lotteries, [Announce (NoSale (item lottery)); Saved lotteries])
      | _ :: _ =>
          match tickets lottery !! r with
          | Some winning_ticket =>
              (lotteries,
               [Announce (Winner (buyer_id winning_ticket) (code winning_ticket)
                                 (item lottery) (seller_id lottery));
                Saved lotteries])
          | None => (lotteries, [Raised IndexError])
          end
      end
  end.

(** ** [admin_end] (bot.py, lines 409-420) *)

Definition admin_end (lotteries : Store) (manage_guild : bool)
    (message_id : Z) (r : nat) : Store * list Event :=
  if negb manage_guild then (lotteries, [Raised MissingPermissions])
  else
    match lotteries !! message_id with
    | None => (lotteries, [Reply NoLotteryWithThatId])
    | Some _ =>
        let '(lotteries', out) := finalize_lottery lotteries message_id r in
        (lotteries', out ++ [Reply LotteryFinalized])
    end.

(** ** [buy_tickets] (bot.py, lines 326-386) *)

Record BuyCtx := mkBuy {
  buy_count : Z;                (* the argument of !buy *)
  buy_author : Z;               (* ctx.author.id *)
  buy_channel : Z;              (* ctx.channel.id *)
  buy_display_chan : Z;         (* id of the display channel *)
  buy_history : list Z;         (* ids of channel.history, newest first *)
  buy_uuid : nat -> str;        (* hex of the i-th uuid4() of this command *)
  buy_dm_ok : bool              (* whether the buyer accepts direct messages *)
}.

(** The scan of the last 50 messages for one that is an active lottery. *)
Fixpoint find_lottery_message (lotteries : Store) (history : list Z) : option Z :=
  match history with
  | [] => None
  | message :: older =>
      match lotteries !! message with
      | Some _ => Some message
      | None => find_lottery_message lotteries older
      end
  end.

(** The check of lines 360-364: [Some n] when the request is refused with [n] tickets left. *)
Definition capacity_error (lottery : Lottery) (count : Z) : option Z :=
  let current_sold := Z.of_nat (length (tickets lottery)) in
  match max_tickets lottery with
  | Some max_tickets =>
      if current_sold + count >? max_tickets
      then Some (max_tickets - current_sold) else None
  | None => None
  end.

(** The loop of lines 367-371; [i] counts the codes drawn so far. *)
Fixpoint buy_loop (n i : nat) (uuid : nat -> str) (author : Z)
    (ts : list Ticket) (new_codes : list str) : list Ticket * list str :=
  match n with
  | O => (ts, new_codes)
  | S n' =>
      let c := gen_ticket_code (uuid i) in
      buy_loop n' (S i) uuid author (ts ++ [mkTicket c author]) (new_codes ++ [c])
  end.

Definition buy_tickets (lotteries : Store) (ctx : BuyCtx) : Store * list Event :=
  let count := buy_count ctx in
  if count <=? 0 then (lotteries, [Reply CountMustBePositive])
  else if negb (buy_channel ctx =? buy_display_chan ctx)
  then (lotteries, [Reply UseDisplayChannel])
  else
    match find_lottery_message lotteries (take 50 (buy_history ctx)) with
    | None => (lotteries, [Reply NoActiveLotteryInChannel])
    | Some found_msg =>
        match lotteries !! found_msg with
        | None => (lotteries, [Reply LotteryNotFound])
        | Some lottery =>
            match capacity_error lottery count with
            | Some remaining => (lotteries, [Reply (NotEnoughTickets remaining)])
            | None =>
                let '(ts, new_codes) :=
                  buy_loop (Z.to_nat count) 0 (buy_uuid ctx) (buy_author ctx)
                           (tickets lottery) [] in
                let lotteries' := <[found_msg := set_tickets lottery ts]> lotteries in
                (lotteries',
                 [Saved lotteries'; DisplayUpdated found_msg]
                 ++ (if buy_dm_ok ctx
                     then [DirectMessage (buy_author ctx) new_codes]
                     else [Reply (PurchasedNoDM count)])
                 ++ [Reply (Purchased count)])
            end
        end
    end.

(** ** [lottery_create] (bot.py, lines 249-324)

    What Discord answers is part of the context: the channel that
    [create_ticket_channel] makes and the message that
    [post_lottery_display] sends are taken to succeed and only their ids
    are kept.  The clock is read twice, for the end time at line 300 and,
    after the ticket channel is made, for [created_at] at line 312.
    [cr_timestamp] is [datetime.timestamp()] as the platform computes it
    for a naive datetime, which it reads in the local time zone; [None] is
    the [ValueError] it raises for a time it cannot convert. *)

Record CreateCtx := mkCreate {
  cr_action : str;
  cr_rest : option str;
  cr_parts : option (list str);   (* shlex.split(rest); None when it raises *)
  cr_author : Z;
  cr_attachment : option str;     (* url of the first attachment *)
  cr_now : Z;                     (* utcnow() at line 300, whole seconds *)
  cr_now_us : Z;                  (* and its microseconds *)
  cr_ticket_chan : Z;             (* id of the channel create_ticket_channel makes *)
  cr_created : Z;                 (* utcnow() at line 312, whole seconds *)
  cr_created_us : Z;              (* and its microseconds *)
  cr_timestamp : Z -> option Z;   (* datetime.timestamp() on this machine *)
  cr_msg_id : Z                   (* id of the message post_lottery_display sends *)
}.

(** The seconds of 0001-01-01T00:00:00 and of 9999-12-31T23:59:59: adding a
    [timedelta] that leaves this range raises [OverflowError]. *)
Definition MIN_DATETIME : Z := -62135596800.
Definition MAX_DATETIME : Z := 253402300799.

Definition datetime_add (now seconds : Z) : option Z :=
  let t := now + seconds in
  if (MIN_DATETIME <=? t) && (t <=? MAX_DATETIME) then Some t else None.

(** Lines 282-287, on the parts after the price: no fourth part leaves the
    lottery without a cap, and a fourth part must be an [int]; the outer
    [None] is the reply that it is not. *)
Definition max_tickets_arg (more : list str) : option (option Z) :=
  match more with
  | [] => Some None
  | p3 :: _ => Some <$> py_int p3
  end.

Definition lottery_create (lotteries : Store) (ctx : CreateCtx) : Store * list Event :=
  if negb (bool_decide (lower (cr_action ctx) = lit "create"))
  then (lotteries, [Reply Usage])
  else
    match cr_rest ctx with
    | None | Some [] => (lotteries, [Reply MissingParameters])
    | Some (_ :: _) =>
        match cr_parts ctx with
        | None => (lotteries, [Reply CouldntParseCommand])
        | Some (item_name :: duration_raw :: price :: more) =>
            match max_tickets_arg more with
            | None => (lotteries, [Reply MaxTicketsMustBeNumber])
            | Some max_tickets =>
                match parse_duration duration_raw with
                | None => (lotteries, [Reply CouldntParseDuration])
                | Some seconds =>
                    match datetime_add (cr_now ctx) seconds with
                    | None => (lotteries, [Raised OverflowError])
                    | Some end_time =>
                        let lottery_obj :=
                          {| item := item_name;
                             seller_id := cr_author ctx;
                             ticket_price := price;
                             max_tickets := max_tickets;
                             image_url := cr_attachment ctx;
                             tickets := [];
                             created_at := cr_created ctx;
                             created_at_us := cr_created_us ctx;
                             end_time := end_time;
                             end_time_us := cr_now_us ctx;
                             ticket_channel_id := cr_ticket_chan ctx;
                             lottery_id := cr_msg_id ctx |} in
                        (* post_lottery_display builds the embed before it
                           sends: line 127 takes the timestamp of the end *)
                        match cr_timestamp ctx end_time with
                        | None => (lotteries, [Raised ValueError])
                        | Some _ =>
                            let lotteries' :=
                              <[cr_msg_id ctx := lottery_obj]> lotteries in
                            (lotteries',
                             [Saved lotteries';
                              TimerStarted (cr_msg_id ctx) seconds;
                              Reply LotteryCreated])
                        end
                    end
                end
            end
        | Some _ => (lotteries, [Reply MissingParameters])
        end
    end.

(** ** Runs of the bot

    The event loop runs one handler at a time and switches at an [await]
    only.  [buy_tickets] has no [await] between its look-up of the lottery
    (line 356) and the last append (line 370), [finalize_lottery] pops the
    lottery before its first [await], and [lottery_create] stores the
    lottery in one assignment: each changes the dictionary in one step. *)

Inductive Op :=
| OpCreate (ctx : CreateCtx)
| OpBuy (ctx : BuyCtx)
| OpTimerFire (message_id : Z) (r : nat)        (* lottery_timer_task wakes up *)
| OpAdminEnd (manage_guild : bool) (message_id : Z) (r : nat).

Definition step (lotteries : Store) (op : Op) : Store * list Event :=
  match op with
  | OpCreate ctx => lottery_create lotteries ctx
  | OpBuy ctx => buy_tickets lotteries ctx
  | OpTimerFire message_id r => finalize_lottery lotteries message_id r
  | OpAdminEnd p message_id r => admin_end lotteries p message_id r
  end.

Fixpoint run (lotteries : Store) (ops : list Op) : Store * list Event :=
  match ops with
  | [] => (lotteries, [])
  | op :: ops' =>
      let '(lotteries1, out1) := step lotteries op in
      let '(lotteries2, out2) := run lotteries1 ops' in
      (lotteries2, out1 ++ out2)
  end.

(** Whether [op] is a creation whose display message has the id [m]. *)
Definition posts (m : Z) (op : Op) : bool :=
  match op with
  | OpCreate ctx => cr_msg_id ctx =? m
  | _ => false
  end.

(** ** Persistence (bot.py, lines 43-59) *)

Module Persistence.

(** What [json.load] can return. *)
Inductive PyVal :=
| PNone
| PBool (b : bool)
| PInt (z : Z)
| PFloat (repr : str)
| PStr (s : str)
| PList (l : list PyVal)
| PDict (kv : list (str * PyVal)).

(** What line 45 to 48 find on disk: no file, a file that cannot be read
    or decoded (an exception inside the [try]), or a decoded document. *)
Inductive Snapshot :=
| Absent
| Undecodable
| Decoded (data : PyVal).

Fixpoint dict_lookup (kv : list (str * PyVal)) (k : str) : option PyVal :=
  match kv with
  | [] => None
  | (k', v) :: kv' => if bool_decide (k' = k) then Some v else dict_lookup kv' k
  end.

(** [data.get("lotteries", {})]; [None] is the [AttributeError] of a
    value that has no [get]. *)
Definition get_lotteries (data : PyVal) : option PyVal :=
  match data with
  | PDict kv => Some (default (PDict []) (dict_lookup kv (lit "lotteries")))
  | _ => None
  end.

(** [load_data]: the value the global [lotteries] is bound to. *)
Definition load_data (file : Snapshot) : PyVal :=
  match file with
  | Absent => PDict []
  | Undecodable => PDict []
  | Decoded data =>
      match get_lotteries data with
      | Some v => v
      | None => PDict []          (* except Exception *)
      end
  end.

(** ** [save_data] (bot.py, lines 55-59)

    [json.dump(data, f, indent=2, default=str)] on
    [data = {"lotteries": lotteries}].  The encoder is the one of the
    [json] module for [indent=2], with its defaults otherwise: items
    separated by a comma and a new line, a key and its value by a colon and
    a space, every level indented by two more spaces, an empty dict or
    list written as a pair of brackets, strings in ASCII with the escapes
    of [ensure_ascii], so that the text is ASCII.  A value that
    [json.load] returned is one the encoder knows, so [default] is not
    called.

    [int.__repr__] raises [ValueError] for an int of more than 4300 digits;
    what was written before stays written.  [Out] is the text that an
    encoding produced and whether it came to its end. *)

(** [str(n)] for an int. *)
Definition py_str_int (z : Z) : str := lit (NilEmpty.string_of_int (Z.to_int z)).

Definition int_repr (z : Z) : option str :=
  if Nat.leb (length (py_str_int (Z.abs z))) MAX_STR_DIGITS
  then Some (py_str_int z) else None.

Definition hex_digit (n : N) : ascii :=
  nth (N.to_nat n) (lit "0123456789abcdef") "0"%char.

Definition quote : ascii := ascii_of_N 34.
Definition backslash : ascii := ascii_of_N 92.

Definition escape_char (c : ascii) : str :=
  let n := ord c in
  if (n =? 34)%N then [backslash; quote]
  else if (n =? 92)%N then [backslash; backslash]
  else if (n =? 10)%N then [backslash; "n"%char]
  else if (n =? 13)%N then [backslash; "r"%char]
  else if (n =? 9)%N then [backslash; "t"%char]
  else if (n =? 8)%N then [backslash; "b"%char]
  else if (n =? 12)%N then [backslash; "f"%char]
  else if ((32 <=? n) && (n <=? 126))%N then [c]
  else [backslash; "u"%char; "0"%char; "0"%char; hex_digit (n / 16); hex_digit (n mod 16)].

(** The text for a float, given its [repr]. *)
Definition floatstr (r : str) : str :=
  if bool_decide (r = lit "nan") then lit "NaN"
  else if bool_decide (r = lit "inf") then lit "Infinity"
  else if bool_decide (r = lit "-inf") then lit "-Infinity"
  else r.

Definition encode_basestring_ascii (s : str) : str :=
  [quote] ++ flat_map escape_char s ++ [quote].

Definition Out : Type := str * bool.

Definition emit (s : str) : Out := (s, true).

Definition raise : Out := ([], false).

Definition then_ (a b : Out) : Out :=
  if snd a then (fst a ++ fst b, snd b) else a.

Definition chain (parts : list Out) : Out := fold_right then_ (emit []) parts.

Definition newline_indent (level : nat) : str :=
  ascii_of_N 10 :: concat (replicate level (lit "  ")).

Fixpoint iterencode (level : nat) (o : PyVal) {struct o} : Out :=
  match o with
  | PNone => emit (lit "null")
  | PBool true => emit (lit "true")
  | PBool false => emit (lit "false")
  | PInt z => match int_repr z with Some s => emit s | None => raise end
  | PFloat r => emit (floatstr r)
  | PStr s => emit (encode_basestring_ascii s)
  | PList [] => emit (lit "[]")
  | PList (x :: xs) =>
      chain [emit (lit "["); emit (newline_indent (S level)); iterencode (S level) x;
             (fix rest (l : list PyVal) : Out :=
                match l with
                | [] => emit []
                | y :: l' =>
                    chain [emit (lit ","); emit (newline_indent (S level));
                           iterencode (S level) y; rest l']
                end) xs;
             emit (newline_indent level); emit (lit "]")]
  | PDict [] => emit (lit "{}")
  | PDict ((k, x) :: kv) =>
      chain [emit (lit "{"); emit (newline_indent (S level));
             emit (encode_basestring_ascii k); emit (lit ": "); iterencode (S level) x;
             (fix rest (l : list (str * PyVal)) : Out :=
                match l with
                | [] => emit []
                | (k', y) :: l' =>
                    chain [emit (lit ","); emit (newline_indent (S level));
                           emit (encode_basestring_ascii k'); emit (lit ": ");
                           iterencode (S level) y; rest l']
                end) kv;
             emit (newline_indent level); emit (lit "}")]
  end.

Definition json_dump (data : PyVal) : Out := iterencode 0 data.

(** The data file and the lock.  [open(DATA_FILE, "w")] makes the file or
    empties it, and [json.dump] then writes into it.  [Progress] says how
    far a save got: [NotOpened] when [open] raised, or opened with the
    first [n] characters that the encoder produced written; [n] at least
    their number is a save that was not cut short.  A save that ends
    without an exception has [Returned].

    [async with save_lock] takes the lock, waiting when it is held, and
    gives it back however the body ends.  The body has no [await]: the
    event loop runs it in one piece. *)

Record Files := mkFiles { data_file : option str; save_lock : bool }.

Inductive Progress := NotOpened | Written (n : nat).

Inductive Ending := Returned | Failed.

Definition open_w (file : option str) : option str := Some [].

Definition write (file : option str) (chunk : str) : option str :=
  Some (default [] file ++ chunk).

(** [None]: the lock is held and the task waits. *)
Definition acquire (w : Files) : option Files :=
  if save_lock w then None else Some (mkFiles (data_file w) true).

Definition release (w : Files) : Files := mkFiles (data_file w) false.

Definition save_body (w : Files) (lotteries : PyVal) (p : Progress) : Files * Ending :=
  let data := PDict [(lit "lotteries", lotteries)] in
  match p with
  | NotOpened => (w, Failed)
  | Written n =>
      let out := json_dump data in
      (mkFiles (write (open_w (data_file w)) (take n (fst out))) (save_lock w),
       if Nat.leb (length (fst out)) n && snd out then Returned else Failed)
  end.

Definition save_data (w : Files) (lotteries : PyVal) (p : Progress)
  : option (Files * Ending) :=
  match acquire w with
  | None => None
  | Some w1 =>
      let '(w2, ending) := save_body w1 lotteries p in
      Some (release w2, ending)
  end.


(** ** The lotteries in memory (bot.py, lines 305-320, 371)

    The dictionary that [lottery_create] builds and [buy_tickets] extends,
    key by key in the order of the source.  Identifiers are kept as
    [str(id)], the two times as [isoformat()] of a naive datetime. *)








End Persistence.

(** ** Notions used in the statements *)

(** All that the parser of [int] asks of a character. *)
Definition char_class (c : ascii) : bool * option Z * bool * bool * bool :=
  (c_isspace c, digit_val c, Ascii.eqb c "_", Ascii.eqb c "+", Ascii.eqb c "-").

Definition same_class (a b : ascii) : Prop := char_class a = char_class b.

(** Two results of [scan_digits] that agree up to the classes of what is
    left. *)
Definition same_scan (x y : option (Z * str)) : Prop :=
  match x, y with
  | Some (n, t), Some (n', t') => n = n' /\ Forall2 same_class t t'
  | None, None => True
  | _, _ => False
  end.

Definition spaces (ws : str) : Prop := Forall (fun c => isspace c = true) ws.

(** A purchase went through: the command ended with its confirmation. *)
Definition is_purchased (e : Event) : bool :=
  match e with
  | Reply (Purchased _) => true
  | _ => false
  end.

Definition accepted (out : list Event) : bool := existsb is_purchased out.

(** The number of tickets sold, as line 361 counts it. *)
Definition sold (l : Lottery) : Z := Z.of_nat (length (tickets l)).

(** A lottery with a cap that is not negative holds no more tickets than
    the cap. *)
Definition within_capacity (l : Lottery) : Prop :=
  forall M, max_tickets l = Some M -> 0 <= M -> sold l <= M.

Definition capacity_inv (lotteries : Store) : Prop :=
  forall m l, lotteries !! m = Some l -> within_capacity l.

Definition codes (l : Lottery) : list str := map code (tickets l).

(** The codes one [!buy] draws. *)
Definition drawn_codes (ctx : BuyCtx) : list str :=
  map (fun i => gen_ticket_code (buy_uuid ctx i)) (seq 0 (Z.to_nat (buy_count ctx))).

(** The winner a finalization announces, if it announces one. *)
Definition announced_winner (out : list Event) : option Z :=
  match out with
  | Announce (Winner w _ _ _) :: _ => Some w
  | _ => None
  end.

(** Among the [n] values the draw can take, those that make [b] win. *)
Definition draws_won_by (lotteries : Store) (message_id : Z) (n : nat) (b : Z) : nat :=
  length (List.filter
            (fun r => match announced_winner (snd (finalize_lottery lotteries message_id r)) with
                      | Some w => w =? b
                      | None => false
                      end)
            (seq 0 n)).

Definition tickets_held_by (b : Z) (ts : list Ticket) : nat :=
  length (List.filter (fun t => buyer_id t =? b) ts).

(** [end_time] replaced, as [set_tickets] replaces the tickets. *)
Definition set_end_time (l : Lottery) (e : Z) : Lottery :=
  {| item := item l; seller_id := seller_id l; ticket_price := ticket_price l;
     max_tickets := max_tickets l; image_url := image_url l; tickets := tickets l;
     created_at := created_at l; created_at_us := created_at_us l;
     end_time := e; end_time_us := end_time_us l;
     ticket_channel_id := ticket_channel_id l; lottery_id := lottery_id l |}.

(** What it takes for [buy_tickets] to sell: a positive count, the display
    channel, an active lottery among the last 50 messages, room under the
    cap. *)
Definition buyable (lotteries : Store) (ctx : BuyCtx) (found : Z) (lottery : Lottery) : Prop :=
  0 < buy_count ctx /\
  buy_channel ctx = buy_display_chan ctx /\
  find_lottery_message lotteries (take 50 (buy_history ctx)) = Some found /\
  lotteries !! found = Some lottery /\
  capacity_error lottery (buy_count ctx) = None.

(** The tickets one [!buy] appends. *)
Definition new_tickets (ctx : BuyCtx) : list Ticket :=
  map (fun c => mkTicket c (buy_author ctx)) (drawn_codes ctx).

(** The lottery that [lottery_create] stores. *)
Definition new_lottery (ctx : CreateCtx) (item_name price : str) (cap : option Z)
    (ends : Z) : Lottery :=
  {| item := item_name; seller_id := cr_author ctx; ticket_price := price;
     max_tickets := cap; image_url := cr_attachment ctx; tickets := [];
     created_at := cr_created ctx; created_at_us := cr_created_us ctx;
     end_time := ends; end_time_us := cr_now_us ctx;
     ticket_channel_id := cr_ticket_chan ctx; lottery_id := cr_msg_id ctx |}.

(** A command that gets as far as the duration: the action is [create],
    there is text after it, and it splits into these parts. *)
Definition well_formed_create (ctx : CreateCtx) (item_name d price : str)
    (more : list str) : Prop :=
  lower (cr_action ctx) = lit "create" /\
  (exists c rest, cr_rest ctx = Some (c :: rest)) /\
  cr_parts ctx = Some (item_name :: d :: price :: more).

(** A snapshot that [save_data] could have written: an object whose
    [lotteries] is a mapping. *)
Definition well_formed (file : Persistence.Snapshot) : Prop :=
  exists kv m, file = Persistence.Decoded (Persistence.PDict kv) /\
               Persistence.dict_lookup kv (lit "lotteries")
               = Some (Persistence.PDict m).




(** What the commands of a run answered in the channel. *)
Definition replies (out : list Event) : list ReplyText :=
  omap (fun e => match e with Reply r => Some r | _ => None end) out.

(** ** Sample commands *)

(** [datetime.timestamp()] of a naive datetime on a machine whose zone is
    [offset] seconds east of UTC all year: the conversion looks a day back
    and at the local reading of the time, and raises [ValueError] when
    either leaves the calendar. *)
Definition fixed_zone_timestamp (offset t : Z) : option Z :=
  if (MIN_DATETIME + 86400 <=? t) && (MIN_DATETIME <=? t + offset)
     && (t + offset <=? MAX_DATETIME)
  then Some (t - offset) else None.

Definition create_cmd (item_name duration price : string) (cap : option string)
    (now msg : Z) : CreateCtx :=
  {| cr_action := lit "create";
     cr_rest := Some (lit item_name ++ lit " " ++ lit duration ++ lit " " ++ lit price
                      ++ match cap with Some c => lit " " ++ lit c | None => [] end);
     cr_parts := Some ([lit item_name; lit duration; lit price]
                       ++ match cap with Some c => [lit c] | None => [] end);
     cr_author := 1;
     cr_attachment := None;
     cr_now := now;
     cr_now_us := 0;
     cr_ticket_chan := 70;
     cr_created := now;
     cr_created_us := 0;
     cr_timestamp := fixed_zone_timestamp 0;
     cr_msg_id := msg |}.

Definition sample_uuids (i : nat) : str :=
  nth i [lit "3f2a9c0471d84e5b9a6c1d2e3f405162";
         lit "b7e1d05a2c3f4a6e8b9d0c1a2f3e4d5c";
         lit "09af34c17b2e4d8f95a0c6e1d2b3a4f5"]
        (lit "5d6e7f8091a24b3c8d4e5f60718293a4").

(** Two different UUIDs with the same first eight digits. *)
Definition clashing_uuids (i : nat) : str :=
  nth i [lit "deadbeef11114a6e8b9d0c1a2f3e4d5c"]
        (lit "deadbeef22224d8f95a0c6e1d2b3a4f5").

Definition buy_cmd (author count : Z) (history : list Z) (uuid : nat -> str) : BuyCtx :=
  {| buy_count := count;
     buy_author := author;
     buy_channel := 5;
     buy_display_chan := 5;
     buy_history := history;
     buy_uuid := uuid;
     buy_dm_ok := true |}.

Definition sample_lottery (cap : option Z) (ts : list Ticket) (ends : Z) : Lottery :=
  {| item := lit "Sword"; seller_id := 1; ticket_price := lit "50";
     max_tickets := cap; image_url := None; tickets := ts;
     created_at := 1000; created_at_us := 0;
     end_time := ends; end_time_us := 0; ticket_channel_id := 70;
     lottery_id := 7 |}.

(** ** The display message (bot.py, lines 115-167)

    [post_lottery_display] and [update_display_message] build the same
    embed but for the place of the ticket count: a field in the first, the
    footer in the second.  [timestamp] is [datetime.timestamp()] on the end
    time, which reads the naive datetime in the local time zone. *)

Record Embed := mkEmbed {
  embed_item : str;                  (* the title, Lottery: <item> *)
  embed_seller : Z;
  embed_price : str;
  embed_max : option Z;              (* None is printed as Unlimited *)
  embed_ends : Z;
  embed_image : option str;
  embed_field_sold : option nat;     (* the field Tickets Sold *)
  embed_footer_sold : option nat     (* the footer Tickets Sold: n *)
}.

(** [lottery['max_tickets'] if lottery.get('max_tickets') else 'Unlimited'] *)
Definition shown_max (cap : option Z) : option Z :=
  match cap with
  | Some m => if m =? 0 then None else Some m
  | None => None
  end.

(** [if lottery.get("image_url")]: no url and the empty url set no image. *)
Definition shown_image (url : option str) : option str :=
  match url with
  | Some (c :: u) => Some (c :: u)
  | _ => None
  end.

Definition lottery_embed (timestamp : Z -> Z) (lottery : Lottery)
    (field footer : option nat) : Embed :=
  {| embed_item := item lottery;
     embed_seller := seller_id lottery;
     embed_price := ticket_price lottery;
     embed_max := shown_max (max_tickets lottery);
     embed_ends := timestamp (end_time lottery);
     embed_image := shown_image (image_url lottery);
     embed_field_sold := field;
     embed_footer_sold := footer |}.

(** The embed that [post_lottery_display] sends. *)
Definition post_lottery_display (timestamp : Z -> Z) (lottery : Lottery) : Embed :=
  lottery_embed timestamp lottery (Some (length (tickets lottery))) None.

(** The edit that [update_display_message] makes, if it makes one:
    [fetched] says whether the display message still exists. *)
Definition update_display_message (timestamp : Z -> Z) (lotteries : Store)
    (fetched : bool) (message_id : Z) : option Embed :=
  if negb fetched then None
  else
    match lotteries !! message_id with
    | None => None
    | Some lottery =>
        Some (lottery_embed timestamp lottery None (Some (length (tickets lottery))))
    end.

(** ** [my_tickets] (bot.py, lines 388-407)

    The dictionary is walked in the order of [map_to_list], by key, where
    Python walks it in the order of insertion: the entries are the same,
    their order in the message may differ. *)

Inductive MyTicketsReply :=
| NoTicketsHeld                                     (* You have no tickets ... *)
| TicketsSent (found : list (str * list str))       (* the direct message *)
| TicketsNotSent.                                   (* I couldn't DM you *)

Definition user_codes (user_id : Z) (lot : Lottery) : list str :=
  map code (List.filter (fun t => buyer_id t =? user_id) (tickets lot)).

Definition found_tickets (lotteries : Store) (user_id : Z) : list (str * list str) :=
  omap (fun '(lid, lot) =>
          match user_codes user_id lot with
          | [] => None
          | c :: cs => Some (item lot, c :: cs)
          end)
       (map_to_list lotteries).

Definition my_tickets (lotteries : Store) (user_id : Z) (dm_ok : bool) : MyTicketsReply :=
  match found_tickets lotteries user_id with
  | [] => NoTicketsHeld
  | e :: es => if dm_ok then TicketsSent (e :: es) else TicketsNotSent
  end.

(** ** [lottery_status] (bot.py, lines 422-431) *)

Record StatusLine := mkStatus {
  st_item : str;
  st_seller : Z;
  st_sold : nat;
  st_ends : Z;
  st_msg : Z
}.

Definition status_line (timestamp : Z -> Z) (entry : Z * Lottery) : StatusLine :=
  {| st_item := item (snd entry);
     st_seller := seller_id (snd entry);
     st_sold := length (tickets (snd entry));
     st_ends := timestamp (end_time (snd entry));
     st_msg := fst entry |}.

(** [None] is the reply that there are no active lotteries. *)
Definition lottery_status (timestamp : Z -> Z) (lotteries : Store)
  : option (list StatusLine) :=
  match map_to_list lotteries with
  | [] => None
  | e :: es => Some (map (status_line timestamp) (e :: es))
  end.

(** ** [on_ready] (bot.py, lines 231-245)

    The loop of lines 237-243 over the lotteries in memory once [load_data]
    has run: one task for each.  The end time of a lottery is the naive
    datetime that [fromisoformat] reads from its [end_time]; the clock is
    read anew in every round of the loop, [utcnow i] being the reading of
    round [i], in seconds and microseconds.  The rounds go in the order of
    [map_to_list], by key, where Python goes in the order of insertion: the
    tasks are the same, their order may differ.  The bot is taken to be in
    a guild, so that [bot.guilds[0]] is there.

    [total_seconds] divides the microseconds of the difference by [10**6]
    as Python divides one [int] by another: the quotient is rounded to the
    nearest float, to the even one of two that are equally near.  A float
    is kept as [mantissa * 2 ^ exponent], the mantissa of 53 bits;
    [binade a b] is the power of two at or below [a / b].  The quotients
    that come up here are far from the ends of the exponent range.  [int]
    of a float drops its fraction. *)

Record PyFloat := mkFloat { mantissa : Z; exponent : Z }.

Definition round_half_even (n d : Z) : Z :=
  let q := n / d in
  match 2 * (n mod d) ?= d with
  | Lt => q
  | Gt => q + 1
  | Eq => if Z.even q then q else q + 1
  end.

Definition binade (a b : Z) : Z :=
  let e := Z.log2 a - Z.log2 b in
  if (if 0 <=? e then b * 2 ^ e <=? a else b <=? a * 2 ^ (- e)) then e else e - 1.

Definition true_divide (a b : Z) : PyFloat :=
  if a =? 0 then mkFloat 0 0
  else
    let k := 52 - binade (Z.abs a) b in
    let m := if 0 <=? k then round_half_even (Z.abs a * 2 ^ k) b
             else round_half_even (Z.abs a) (b * 2 ^ (- k)) in
    mkFloat (Z.sgn a * m) (- k).

Definition float_le_zero (x : PyFloat) : bool := mantissa x <=? 0.

Definition int_of_float (x : PyFloat) : Z :=
  if 0 <=? exponent x then mantissa x * 2 ^ exponent x
  else Z.quot (mantissa x) (2 ^ (- exponent x)).

(** [timedelta.total_seconds()] of a difference of [us] microseconds. *)
Definition total_seconds (us : Z) : PyFloat := true_divide us 1000000.

(** [end_time - datetime.utcnow()], in microseconds. *)
Definition time_left (lot : Lottery) (now : Z * Z) : Z :=
  (end_time lot - fst now) * 1000000 + (end_time_us lot - snd now).

Inductive Task :=
| FinalizeNow (message_id : Z)
| SleepThenFinalize (message_id : Z) (seconds : Z).

Definition startup_task (now : Z * Z) (entry : Z * Lottery) : Task :=
  let seconds_left := total_seconds (time_left (snd entry) now) in
  if float_le_zero seconds_left then FinalizeNow (fst entry)
  else SleepThenFinalize (fst entry) (int_of_float seconds_left).

Definition on_ready (lotteries : Store) (utcnow : nat -> Z * Z) : list Task :=
  imap (fun i entry => startup_task (utcnow i) entry) (map_to_list lotteries).

Definition task_id (t : Task) : Z :=
  match t with
  | FinalizeNow m => m
  | SleepThenFinalize m _ => m
  end.

(** The lotteries that startup finalizes at once. *)
Definition immediate (tasks : list Task) : list Z :=
  omap (fun t => match t with FinalizeNow m => Some m | _ => None end) tasks.

(** ** [find_or_create_category], [find_or_create_channel]
    (bot.py, lines 83-96)

    The guild is what the bot sees of it: its categories and its text
    channels, in the order Discord lists them.  The functions return a
    channel that is there or ask Discord for a new one; the result says
    which. *)

Record Category := mkCategory {
  cat_id : Z;
  cat_name : str
}.

Record TextChannel := mkChannel {
  chan_id : Z;
  chan_name : str;
  chan_category : option Z
}.

Record Guild := mkGuild {
  guild_categories : list Category;
  guild_text_channels : list TextChannel
}.

Fixpoint find_category (cs : list Category) (name : str) : option Category :=
  match cs with
  | [] => None
  | c :: cs' =>
      if bool_decide (lower (cat_name c) = lower name) then Some c
      else find_category cs' name
  end.

Fixpoint find_channel (chs : list TextChannel) (name : str) : option TextChannel :=
  match chs with
  | [] => None
  | ch :: chs' =>
      if bool_decide (lower (chan_name ch) = lower name) then Some ch
      else find_channel chs' name
  end.

Inductive CategoryResult :=
| ExistingCategory (c : Category)
| NewCategory (name : str).                 (* guild.create_category(name) *)

Inductive ChannelResult :=
| ExistingChannel (ch : TextChannel)
| NewChannel (name : str) (cat : option CategoryResult).
                                            (* guild.create_text_channel(name, category=cat) *)

Definition find_or_create_category (guild : Guild) (name : str) : CategoryResult :=
  match find_category (guild_categories guild) name with
  | Some c => ExistingCategory c
  | None => NewCategory name
  end.

Definition find_or_create_channel (guild : Guild) (name : str)
    (category_name : option str) : ChannelResult :=
  match find_channel (guild_text_channels guild) name with
  | Some ch => ExistingChannel ch
  | None =>
      NewChannel name
        match category_name with
        | Some (c :: n) => Some (find_or_create_category guild (c :: n))
        | _ => None
        end
  end.

(** ** More notions used in the statements *)

Definition is_announce (e : Event) : bool :=
  match e with
  | Announce _ => true
  | _ => false
  end.

Definition announcements (out : list Event) : nat :=
  length (List.filter is_announce out).

Definition is_create (op : Op) : bool :=
  match op with
  | OpCreate _ => true
  | _ => false
  end.

Definition creations (ops : list Op) : nat := length (List.filter is_create ops).

(** A lottery as it was but for tickets added at the end. *)
Definition extends (l l' : Lottery) : Prop :=
  exists more, l' = set_tickets l (tickets l ++ more).

(** The characters [int] can accept. *)
Definition int_alphabet (c : ascii) : bool :=
  c_isspace c || bool_decide (is_Some (digit_val c))
  || Ascii.eqb c "_" || Ascii.eqb c "+" || Ascii.eqb c "-".

(** The same before [int] rewrites the string. *)
Definition duration_char (c : ascii) : bool := int_alphabet (int_char c).

Definition is_hex_digit (c : ascii) : bool := in_range 48 57 c || in_range 97 102 c.

Definition is_code_char (c : ascii) : bool := in_range 48 57 c || in_range 65 70 c.

(** The draw of a finalization is below the number of tickets, as
    [random.choice] has it. *)
Definition draw_in_range (s : Store) (op : Op) : Prop :=
  match op with
  | OpTimerFire m r | OpAdminEnd _ m r =>
      forall l, s !! m = Some l -> tickets l <> [] -> (r < length (tickets l))%nat
  | _ => True
  end.

Definition sample_guild : Guild :=
  {| guild_categories := [mkCategory 100 (lit "Lotteries")];
     guild_text_channels := [mkChannel 4 (lit "general") None;
                             mkChannel 5 (lit "Lotteries") None;
                             mkChannel 6 (lit "lotteries") (Some 100)] |}.

(** The character of a decimal digit and the number a row of digits
    writes. *)
Definition digit_char (d : nat) : ascii := ascii_of_nat (48 + d).

Definition decimal_value (ds : list nat) : Z :=
  fold_left (fun acc d => 10 * acc + Z.of_nat d) ds 0.

(** * Properties *)

(** Facts about one character are settled by looking at all 256. *)
Ltac all_chars c :=
  destruct c as [[] [] [] [] [] [] [] []]; vm_compute; try reflexivity.

(** ** Python strings *)

Section StringFacts.

Lemma isspace_lower_char c : isspace (lower_char c) = isspace c.
Proof. all_chars c. Qed.

Lemma lower_char_idem c : lower_char (lower_char c) = lower_char c.
Proof. all_chars c. Qed.

Lemma lower_idem s : lower (lower s) = lower s.
Proof.
  unfold lower. rewrite map_map. apply map_ext. intros c. apply lower_char_idem.
Qed.

Lemma lstrip_lower s : lstrip (lower s) = lower (lstrip s).
Proof.
  induction s as [|c s IH]; simpl; [reflexivity|].
  rewrite isspace_lower_char. destruct (isspace c); [exact IH | reflexivity].
Qed.

Lemma rstrip_lower s : rstrip (lower s) = lower (rstrip s).
Proof.
  unfold rstrip, lower. rewrite <- map_rev.
  fold (lower (rev s)). rewrite lstrip_lower. unfold lower. apply eq_sym, map_rev.
Qed.

Lemma strip_lower s : strip (lower s) = lower (strip s).
Proof. unfold strip. rewrite lstrip_lower. apply rstrip_lower. Qed.

Lemma lstrip_idem s : lstrip (lstrip s) = lstrip s.
Proof.
  induction s as [|c s IH]; simpl; [reflexivity|].
  destruct (isspace c) eqn:E; [exact IH|]. simpl. rewrite E. reflexivity.
Qed.

(** What [lstrip] removes is white space. *)
Lemma lstrip_split s : exists ws, s = ws ++ lstrip s /\ Forall (fun c => isspace c = true) ws.
Proof.
  induction s as [|c s (ws & E & F)]; simpl.
  - exists []. split; [reflexivity | constructor].
  - destruct (isspace c) eqn:Ec.
    + exists (c :: ws). split; [simpl; f_equal; exact E | constructor; assumption].
    + exists []. split; [reflexivity | constructor].
Qed.

Lemma lstrip_app s t :
  lstrip (s ++ t) = match lstrip s with [] => lstrip t | _ :: _ => lstrip s ++ t end.
Proof.
  induction s as [|c s IH]; simpl; [reflexivity|].
  destruct (isspace c); [exact IH | reflexivity].
Qed.

Lemma rstrip_cons c s :
  rstrip (c :: s) =
  match rstrip s with
  | [] => if isspace c then [] else [c]
  | _ :: _ => c :: rstrip s
  end.
Proof.
  unfold rstrip. simpl rev. rewrite lstrip_app.
  destruct (lstrip (rev s)) as [|x l] eqn:E; simpl.
  - destruct (isspace c); reflexivity.
  - rewrite rev_app_distr. simpl.
    destruct (rev l ++ [x]) eqn:E2; [destruct (rev l); discriminate | reflexivity].
Qed.

Lemma lstrip_rstrip s : lstrip (rstrip s) = rstrip (lstrip s).
Proof.
  induction s as [|c s IH]; [reflexivity|].
  rewrite rstrip_cons. simpl lstrip at 2.
  destruct (isspace c) eqn:Ec.
  - destruct (rstrip s) as [|x l] eqn:E.
    + rewrite <- IH. reflexivity.
    + simpl. rewrite Ec. exact IH.
  - rewrite rstrip_cons.
    destruct (rstrip s) as [|x l]; simpl; rewrite Ec; reflexivity.
Qed.

Lemma rstrip_idem s : rstrip (rstrip s) = rstrip s.
Proof. unfold rstrip. rewrite rev_involutive, lstrip_idem. reflexivity. Qed.

Lemma strip_idem s : strip (strip s) = strip s.
Proof.
  unfold strip. rewrite lstrip_rstrip, lstrip_idem, rstrip_idem. reflexivity.
Qed.

(** The normal form [parse_duration] works on is a fixed point. *)
Lemma normal_form_idem s : lower (strip (lower (strip s))) = lower (strip s).
Proof. rewrite strip_lower, strip_idem, lower_idem. reflexivity. Qed.

End StringFacts.

(** ** [int] *)

Section IntFacts.

Lemma same_class_inv a b :
  same_class a b ->
  c_isspace a = c_isspace b /\ digit_val a = digit_val b /\
  Ascii.eqb a "_" = Ascii.eqb b "_" /\ Ascii.eqb a "+" = Ascii.eqb b "+" /\
  Ascii.eqb a "-" = Ascii.eqb b "-".
Proof. unfold same_class, char_class. intros H. injection H. auto. Qed.

Lemma skip_space_ext s s' :
  Forall2 same_class s s' -> Forall2 same_class (skip_space s) (skip_space s').
Proof.
  induction 1 as [|a b s s' Hab Hs IH]; simpl; [constructor|].
  destruct (same_class_inv _ _ Hab) as (-> & _).
  destruct (c_isspace b); [exact IH | constructor; assumption].
Qed.

Lemma take_sign_ext s s' :
  Forall2 same_class s s' ->
  fst (take_sign s) = fst (take_sign s') /\
  Forall2 same_class (snd (take_sign s)) (snd (take_sign s')).
Proof.
  destruct 1 as [|a b s s' Hab Hs]; simpl; [split; [reflexivity | constructor]|].
  destruct (same_class_inv _ _ Hab) as (_ & _ & _ & -> & ->).
  destruct (Ascii.eqb b "+"); [split; [reflexivity | assumption]|].
  destruct (Ascii.eqb b "-"); split; try reflexivity; try assumption.
  constructor; assumption.
Qed.

Lemma scan_digits_ext s s' :
  Forall2 same_class s s' ->
  forall acc, same_scan (scan_digits acc s) (scan_digits acc s').
Proof.
  intros H.
  enough (G : (forall acc, same_scan (scan_digits acc s) (scan_digits acc s')) /\
              (forall a b, same_class a b -> forall acc,
                  same_scan (scan_digits acc (a :: s)) (scan_digits acc (b :: s'))))
    by exact (proj1 G).
  induction H as [|x y s s' Hxy Hs [IH1 IH2]].
  - split; [intros acc; simpl; split; [reflexivity | constructor]|].
    intros a b Hab acc. simpl.
    destruct (same_class_inv _ _ Hab) as (_ & -> & -> & _).
    destruct (digit_val b); [simpl; split; [reflexivity | constructor]|].
    destruct (Ascii.eqb b "_"); simpl; [exact I|].
    split; [reflexivity | constructor; [assumption | constructor]].
  - split; [intros acc; apply IH2; assumption|].
    intros a b Hab acc.
    cbn [scan_digits].
    destruct (same_class_inv _ _ Hab) as (_ & -> & -> & _).
    destruct (digit_val b) as [d|].
    + apply IH2. assumption.
    + destruct (Ascii.eqb b "_").
      * destruct (same_class_inv _ _ Hxy) as (_ & -> & _).
        destruct (digit_val y); [apply IH1 | exact I].
      * simpl. split; [reflexivity|]. constructor; [assumption|].
        constructor; assumption.
Qed.

Lemma digits_value_ext s s' :
  Forall2 same_class s s' -> digits_value s = digits_value s'.
Proof.
  destruct 1 as [|a b s s' Hab Hs]; simpl; [reflexivity|].
  destruct (same_class_inv _ _ Hab) as (_ & -> & _).
  destruct (digit_val b) as [d|]; [|reflexivity].
  pose proof (scan_digits_ext _ _ Hs d) as H.
  destruct (scan_digits d s) as [[n t]|], (scan_digits d s') as [[n' t']|];
    simpl in H; try contradiction; [|reflexivity].
  destruct H as [<- Ht]. apply skip_space_ext in Ht.
  destruct Ht; reflexivity.
Qed.

Lemma int_digits_inv s n : int_digits s = Some n -> digits_value s = Some n.
Proof.
  unfold int_digits. destruct (Nat.leb _ _); [auto | discriminate].
Qed.

Lemma count_digits_ext s s' :
  Forall2 same_class s s' -> count_digits s = count_digits s'.
Proof.
  induction 1 as [|a b s s' Hab Hs IH]; simpl; [reflexivity|].
  destruct (same_class_inv _ _ Hab) as (_ & -> & -> & _).
  rewrite IH. reflexivity.
Qed.

Lemma int_digits_ext s s' :
  Forall2 same_class s s' -> int_digits s = int_digits s'.
Proof.
  intros H. unfold int_digits.
  rewrite (count_digits_ext _ _ H), (digits_value_ext _ _ H). reflexivity.
Qed.

Lemma int_ascii_ext s s' :
  Forall2 same_class s s' -> int_ascii s = int_ascii s'.
Proof.
  intros H. unfold int_ascii.
  destruct (take_sign_ext _ _ (skip_space_ext _ _ H)) as [E1 E2].
  destruct (take_sign (skip_space s)) as [neg body],
           (take_sign (skip_space s')) as [neg' body']; simpl in *.
  subst neg'. rewrite (int_digits_ext _ _ E2). reflexivity.
Qed.

Lemma class_lower_char c :
  same_class (int_char (lower_char c)) (int_char c).
Proof. unfold same_class. all_chars c. Qed.

(** [int] does not see the case of its argument. *)
Lemma py_int_lower s : py_int (lower s) = py_int s.
Proof.
  unfold py_int. apply int_ascii_ext. unfold lower.
  induction s as [|c s IH]; simpl; constructor; [apply class_lower_char | exact IH].
Qed.

End IntFacts.

Section IntStrip.

Lemma skip_space_app s t :
  skip_space (s ++ t) =
  match skip_space s with [] => skip_space t | _ :: _ => skip_space s ++ t end.
Proof.
  induction s as [|c s IH]; simpl; [reflexivity|].
  destruct (c_isspace c); [exact IH | reflexivity].
Qed.

Lemma space_not_digit c : c_isspace c = true -> digit_val c = None.
Proof. all_chars c; discriminate. Qed.

Lemma space_not_underscore c : c_isspace c = true -> Ascii.eqb c "_" = false.
Proof. all_chars c; discriminate. Qed.

Lemma sign_not_digit c :
  Ascii.eqb c "+" || Ascii.eqb c "-" = true -> digit_val c = None.
Proof. all_chars c; discriminate. Qed.

Lemma digit_not_space c d : digit_val c = Some d -> c_isspace c = false.
Proof. all_chars c; discriminate. Qed.

(** A trailing blank after the digits: the scan stops where it did. *)
Lemma scan_digits_snoc c s :
  c_isspace c = true ->
  forall acc n tail,
    scan_digits acc (s ++ [c]) = Some (n, tail) -> skip_space tail = [] ->
    exists tail', scan_digits acc s = Some (n, tail') /\ skip_space tail' = [].
Proof.
  intros Hc.
  enough (G : (forall acc n tail,
                  scan_digits acc (s ++ [c]) = Some (n, tail) -> skip_space tail = [] ->
                  exists tail', scan_digits acc s = Some (n, tail') /\ skip_space tail' = []) /\
              (forall a acc n tail,
                  scan_digits acc ((a :: s) ++ [c]) = Some (n, tail) -> skip_space tail = [] ->
                  exists tail', scan_digits acc (a :: s) = Some (n, tail') /\ skip_space tail' = []))
    by exact (proj1 G).
  assert (Stop : forall t, skip_space (t ++ [c]) = [] -> skip_space t = []).
  { intros t. rewrite skip_space_app. destruct (skip_space t); [reflexivity|].
    intros H. destruct (app_eq_nil _ _ H); discriminate. }
  induction s as [|x s [IH1 IH2]].
  - assert (B : forall acc n tail,
               scan_digits acc ([] ++ [c]) = Some (n, tail) -> skip_space tail = [] ->
               exists tail', scan_digits acc [] = Some (n, tail') /\ skip_space tail' = []).
    { intros acc n tail. simpl.
      rewrite (space_not_digit _ Hc), (space_not_underscore _ Hc).
      intros [= <- <-] _. exists []. split; reflexivity. }
    split; [exact B|].
    intros a acc n tail. cbn [app scan_digits].
    destruct (digit_val a) as [d|].
    + apply B.
    + destruct (Ascii.eqb a "_").
      * rewrite (space_not_digit _ Hc). discriminate.
      * intros [= <- <-] Ht. exists [a]. split; [reflexivity|].
        apply (Stop [a]). exact Ht.
  - split; [intros acc n tail; apply IH2|].
    intros a acc n tail. cbn [app scan_digits].
    destruct (digit_val a) as [d|].
    + apply IH2.
    + destruct (Ascii.eqb a "_").
      * destruct (digit_val x); [apply IH1 | discriminate].
      * intros [= <- <-] Ht. exists (a :: x :: s). split; [reflexivity|].
        apply (Stop (a :: x :: s)). exact Ht.
Qed.

(** The last character of a string [int_digits] accepts is a digit or a
    blank, and the blank can go. *)
Lemma digits_value_snoc c s n :
  digits_value (s ++ [c]) = Some n ->
  (c_isspace c = true /\ digits_value s = Some n) \/ is_Some (digit_val c).
Proof.
  destruct s as [|a s]; simpl.
  - destruct (digit_val c); [right; eauto | discriminate].
  - destruct (digit_val a) as [d|]; [|discriminate].
    destruct (c_isspace c) eqn:Hc.
    + destruct (scan_digits d (s ++ [c])) as [[m tail]|] eqn:E; [|discriminate].
      destruct (skip_space tail) eqn:Et; [|discriminate].
      intros [= <-]. left. split; [reflexivity|].
      destruct (scan_digits_snoc c s Hc d m tail E Et) as (tail' & -> & ->).
      reflexivity.
    + intros H. right.
      destruct (digit_val c) eqn:Dc; [eauto|]. exfalso.
      destruct (scan_digits d (s ++ [c])) as [[m tail]|] eqn:E; [|discriminate].
      destruct (skip_space tail) eqn:Et; [|discriminate].
      (* the scan cannot swallow [c], and cannot stop before it *)
      clear H.
      enough (G : (forall acc, scan_digits acc (s ++ [c]) = Some (m, tail) -> False) /\
                  (forall x acc, scan_digits acc ((x :: s) ++ [c]) = Some (m, tail) -> False))
        by exact (proj1 G d E).
      clear E d a.
      assert (Stop : forall t, skip_space (t ++ [c]) <> []).
      { intros t. rewrite skip_space_app. destruct (skip_space t).
        - simpl. rewrite Hc. discriminate.
        - discriminate. }
      induction s as [|y s [IH1 IH2]].
      * assert (B : forall acc, scan_digits acc ([] ++ [c]) = Some (m, tail) -> False).
        { intros acc. simpl. rewrite Dc.
          destruct (Ascii.eqb c "_"); [discriminate|].
          intros [= <- <-]. apply (Stop []). exact Et. }
        split; [exact B|].
        intros x acc. cbn [app scan_digits].
        destruct (digit_val x); [apply B|].
        destruct (Ascii.eqb x "_").
        -- rewrite Dc. discriminate.
        -- intros [= <- <-]. apply (Stop [x]). exact Et.
      * split; [intros acc; apply IH2|].
        intros x acc. cbn [app scan_digits].
        destruct (digit_val x); [apply IH2|].
        destruct (Ascii.eqb x "_").
        -- destruct (digit_val y); [apply IH1 | discriminate].
        -- intros [= <- <-]. apply (Stop (x :: y :: s)). exact Et.
Qed.

Lemma count_digits_snoc c s : (count_digits s <= count_digits (s ++ [c]))%nat.
Proof.
  induction s as [|a s IH]; simpl; [lia|].
  destruct (digit_val a); [lia|]. destruct (Ascii.eqb a "_"); lia.
Qed.

Lemma int_digits_snoc c s n :
  int_digits (s ++ [c]) = Some n ->
  (c_isspace c = true /\ int_digits s = Some n) \/ is_Some (digit_val c).
Proof.
  unfold int_digits.
  destruct (Nat.leb_spec (count_digits (s ++ [c])) MAX_STR_DIGITS) as [Hle|];
    [|discriminate].
  intros H. destruct (digits_value_snoc _ _ _ H) as [[Hc Hs]|Hd]; [left | right; exact Hd].
  split; [exact Hc|].
  pose proof (count_digits_snoc c s).
  destruct (Nat.leb_spec (count_digits s) MAX_STR_DIGITS); [exact Hs | lia].
Qed.

Lemma int_ascii_snoc c s n :
  int_ascii (s ++ [c]) = Some n ->
  (c_isspace c = true /\ int_ascii s = Some n) \/ is_Some (digit_val c).
Proof.
  unfold int_ascii. rewrite skip_space_app.
  destruct (skip_space s) as [|a b] eqn:Es.
  - simpl. destruct (c_isspace c) eqn:Hc; [discriminate|].
    simpl.
    destruct (Ascii.eqb c "+") eqn:Ep; [discriminate|].
    destruct (Ascii.eqb c "-") eqn:Em; [discriminate|].
    intros H. destruct (int_digits [c]) as [m|] eqn:E; [|discriminate].
    apply int_digits_inv in E. simpl in E.
    destruct (digit_val c); [right; eauto | discriminate].
  - simpl.
    assert (Body : forall (neg : bool) (body : str),
               (fun n : Z => if neg then - n else n) <$> int_digits (body ++ [c]) = Some n ->
               (c_isspace c = true /\
                (fun n : Z => if neg then - n else n) <$> int_digits body = Some n) \/
               is_Some (digit_val c)).
    { intros neg body H.
      destruct (int_digits (body ++ [c])) as [m|] eqn:E; [|discriminate].
      destruct (int_digits_snoc _ _ _ E) as [[Hc Hb]|Hd]; [left | right; exact Hd].
      split; [exact Hc|]. rewrite Hb. exact H. }
    destruct (Ascii.eqb a "+"); [exact (Body false b)|].
    destruct (Ascii.eqb a "-"); [exact (Body true b)|].
    exact (Body false (a :: b)).
Qed.

Lemma isspace_int_char c :
  isspace c = true ->
  digit_val (int_char c) = None /\
  (c_isspace (int_char c) = true \/
   (Ascii.eqb (int_char c) "+" = false /\ Ascii.eqb (int_char c) "-" = false)).
Proof. all_chars c; try discriminate; intros _; split; auto. Qed.

(** White space at the end does not change what [int] returns. *)
Lemma py_int_snoc_space c s n :
  isspace c = true -> py_int (s ++ [c]) = Some n -> py_int s = Some n.
Proof.
  intros Hc. unfold py_int. rewrite map_app. simpl. intros H.
  destruct (int_ascii_snoc _ _ _ H) as [[_ G]|[d Hd]]; [exact G|].
  destruct (isspace_int_char c Hc) as [E _]. congruence.
Qed.

(** Nor does white space in front, when [int] accepts the string. *)
Lemma py_int_cons_space c s n :
  isspace c = true -> py_int (c :: s) = Some n -> py_int s = Some n.
Proof.
  intros Hc. unfold py_int, int_ascii. simpl.
  destruct (isspace_int_char c Hc) as [Ed [Es|[Ep Em]]].
  - rewrite Es. auto.
  - destruct (c_isspace (int_char c)); [auto|].
    simpl. rewrite Ep, Em.
    assert (E : int_digits (int_char c :: map int_char s) = None).
    { unfold int_digits. destruct (Nat.leb _ _); [simpl; rewrite Ed|]; reflexivity. }
    rewrite E. discriminate.
Qed.

Lemma py_int_lstrip s n : py_int s = Some n -> py_int (lstrip s) = Some n.
Proof.
  induction s as [|c s IH]; simpl; [auto|].
  destruct (isspace c) eqn:Hc; [|auto].
  intros H. apply IH. exact (py_int_cons_space c s n Hc H).
Qed.

Lemma py_int_drop_spaces ws s n :
  Forall (fun c => isspace c = true) ws ->
  py_int (s ++ ws) = Some n -> py_int s = Some n.
Proof.
  induction ws as [|c ws IH] using rev_ind; intros F.
  - rewrite app_nil_r. auto.
  - apply Forall_app in F as [F1 F2]. inversion F2; subst.
    rewrite app_assoc. intros H. apply IH; [exact F1|].
    eapply py_int_snoc_space; eassumption.
Qed.

Lemma rstrip_split s :
  exists ws, s = rstrip s ++ ws /\ Forall (fun c => isspace c = true) ws.
Proof.
  destruct (lstrip_split (rev s)) as (ws & E & F).
  exists (rev ws). split.
  - unfold rstrip. rewrite <- rev_app_distr, <- E. apply eq_sym, rev_involutive.
  - apply List.Forall_rev. exact F.
Qed.

Lemma py_int_rstrip s n : py_int s = Some n -> py_int (rstrip s) = Some n.
Proof.
  destruct (rstrip_split s) as (ws & E & F). intros H.
  rewrite E in H. exact (py_int_drop_spaces ws _ n F H).
Qed.

Lemma py_int_strip s n : py_int s = Some n -> py_int (strip s) = Some n.
Proof. intros H. apply py_int_rstrip, py_int_lstrip, H. Qed.

End IntStrip.

(** ** [parse_duration] *)

Section DurationFacts.

Lemma startswith_nil s : startswith s [] = true.
Proof. destruct s; reflexivity. Qed.

Lemma endswith_snoc s u v : endswith (s ++ [u]) [v] = Ascii.eqb u v.
Proof.
  unfold endswith. rewrite rev_app_distr. simpl.
  rewrite startswith_nil. apply andb_true_r.
Qed.

Lemma endswith_inv s v : endswith s [v] = true -> exists s', s = s' ++ [v].
Proof.
  unfold endswith. simpl. destruct (rev s) as [|c r] eqn:E; [discriminate|].
  intros H. apply andb_true_iff in H as [H _]. apply Ascii.eqb_eq in H. subst c.
  exists (rev r). rewrite <- (rev_involutive s), E. reflexivity.
Qed.

Lemma strip_snoc s u : isspace u = false -> strip (s ++ [u]) = lstrip s ++ [u].
Proof.
  intros Hu. unfold strip.
  assert (E : lstrip (s ++ [u]) = lstrip s ++ [u]).
  { rewrite lstrip_app. destruct (lstrip s); [simpl; rewrite Hu|]; reflexivity. }
  rewrite E. unfold rstrip. rewrite rev_app_distr. simpl. rewrite Hu.
  change (u :: rev (lstrip s)) with ([u] ++ rev (lstrip s)).
  rewrite rev_app_distr, rev_involutive. reflexivity.
Qed.

Lemma normal_form_snoc s u :
  isspace u = false -> lower_char u = u ->
  lower (strip (s ++ [u])) = lower (lstrip s) ++ [u].
Proof.
  intros Hu Hl. rewrite (strip_snoc s u Hu). unfold lower.
  rewrite map_app. simpl. rewrite Hl. reflexivity.
Qed.

(** The three suffixes, for any text in front of them. *)
Lemma parse_duration_s s : parse_duration (s ++ lit "s") = py_int (lstrip s).
Proof.
  unfold parse_duration. simpl lit.
  rewrite (normal_form_snoc s "s") by reflexivity.
  rewrite endswith_snoc. simpl Ascii.eqb. cbv iota.
  unfold drop_last. rewrite removelast_last. apply py_int_lower.
Qed.

Lemma parse_duration_m s :
  parse_duration (s ++ lit "m") = (fun n => n * 60) <$> py_int (lstrip s).
Proof.
  unfold parse_duration. simpl lit.
  rewrite (normal_form_snoc s "m") by reflexivity.
  rewrite !endswith_snoc. simpl Ascii.eqb. cbv iota.
  unfold drop_last. rewrite removelast_last, py_int_lower. reflexivity.
Qed.

Lemma parse_duration_h s :
  parse_duration (s ++ lit "h") = (fun n => n * 3600) <$> py_int (lstrip s).
Proof.
  unfold parse_duration. simpl lit.
  rewrite (normal_form_snoc s "h") by reflexivity.
  rewrite !endswith_snoc. simpl Ascii.eqb. cbv iota.
  unfold drop_last. rewrite removelast_last, py_int_lower. reflexivity.
Qed.

(** A string that ends in a letter is no integer. *)
Lemma py_int_letter_end s u :
  c_isspace (int_char u) = false -> digit_val (int_char u) = None ->
  endswith s [u] = true -> py_int s = None.
Proof.
  intros Hs Hd He. destruct (endswith_inv _ _ He) as [s' ->].
  destruct (py_int (s' ++ [u])) as [n|] eqn:E; [|reflexivity]. exfalso.
  unfold py_int in E. rewrite map_app in E. simpl in E.
  destruct (int_ascii_snoc _ _ _ E) as [[H _]|[d H]]; congruence.
Qed.

Lemma parse_duration_bare s n : py_int s = Some n -> parse_duration s = Some n.
Proof.
  intros H.
  assert (G : py_int (lower (strip s)) = Some n)
    by (rewrite py_int_lower; apply py_int_strip, H).
  unfold parse_duration.
  destruct (endswith (lower (strip s)) (lit "s")) eqn:Es.
  { rewrite (py_int_letter_end _ "s") in G by (reflexivity || exact Es). discriminate. }
  destruct (endswith (lower (strip s)) (lit "m")) eqn:Em.
  { rewrite (py_int_letter_end _ "m") in G by (reflexivity || exact Em). discriminate. }
  destruct (endswith (lower (strip s)) (lit "h")) eqn:Eh.
  { rewrite (py_int_letter_end _ "h") in G by (reflexivity || exact Eh). discriminate. }
  exact G.
Qed.

Lemma parse_duration_normal s : parse_duration (lower (strip s)) = parse_duration s.
Proof. unfold parse_duration. rewrite normal_form_idem. reflexivity. Qed.

Lemma parse_duration_lower s : parse_duration (lower s) = parse_duration s.
Proof.
  unfold parse_duration. rewrite strip_lower, lower_idem. reflexivity.
Qed.

Lemma parse_duration_strip s : parse_duration (strip s) = parse_duration s.
Proof. unfold parse_duration. rewrite strip_idem. reflexivity. Qed.

Lemma lstrip_spaces ws s : spaces ws -> lstrip (ws ++ s) = lstrip s.
Proof.
  induction 1 as [|c ws Hc _ IH]; simpl; [reflexivity|]. rewrite Hc. exact IH.
Qed.

Lemma rstrip_spaces ws s : spaces ws -> rstrip (s ++ ws) = rstrip s.
Proof.
  intros H. unfold rstrip. rewrite rev_app_distr, lstrip_spaces; [reflexivity|].
  apply List.Forall_rev. exact H.
Qed.

Lemma strip_spaces ws ws' s :
  spaces ws -> spaces ws' -> strip (ws ++ s ++ ws') = strip s.
Proof.
  intros H H'. unfold strip.
  rewrite (lstrip_spaces ws _ H), <- lstrip_rstrip, (rstrip_spaces ws' _ H').
  apply lstrip_rstrip.
Qed.

End DurationFacts.

(** ** The store under the commands *)

Section StoreFacts.

Lemma buy_loop_spec n : forall i uuid author ts new_codes,
  buy_loop n i uuid author ts new_codes =
  (ts ++ map (fun c => mkTicket c author)
             (map (fun j => gen_ticket_code (uuid j)) (seq i n)),
   new_codes ++ map (fun j => gen_ticket_code (uuid j)) (seq i n)).
Proof.
  induction n as [|n IH]; intros i uuid author ts new_codes; simpl.
  - rewrite !app_nil_r. reflexivity.
  - rewrite IH, <- !app_assoc. reflexivity.
Qed.

Lemma find_lottery_message_Some (lotteries : Store) history m :
  find_lottery_message lotteries history = Some m -> is_Some (lotteries !! m).
Proof.
  induction history as [|x h IH]; simpl; [discriminate|].
  destruct (lotteries !! x) eqn:E; [|exact IH].
  intros [= <-]. eauto.
Qed.

(** Messages that are no lottery of the store are passed over. *)
Lemma find_lottery_message_skip (s : Store) newer rest :
  Forall (fun k => s !! k = None) newer ->
  find_lottery_message s (newer ++ rest) = find_lottery_message s rest.
Proof.
  induction 1 as [|k newer Hk _ IH]; simpl; [reflexivity|].
  rewrite Hk. exact IH.
Qed.

(** The scan looks at which ids are active only. *)
Lemma find_lottery_message_dom (s s' : Store) history :
  (forall m, is_Some (s !! m) <-> is_Some (s' !! m)) ->
  find_lottery_message s history = find_lottery_message s' history.
Proof.
  intros H. induction history as [|x h IH]; simpl; [reflexivity|].
  specialize (H x).
  destruct (s !! x) eqn:E, (s' !! x) eqn:E'; try reflexivity; try exact IH.
  - destruct (proj1 H (mk_is_Some _ _ eq_refl)) as [? ?]; discriminate.
  - destruct (proj2 H (mk_is_Some _ _ eq_refl)) as [? ?]; discriminate.
Qed.

(** A purchase that qualifies appends the drawn tickets and nothing else. *)
Lemma buy_tickets_sells lotteries ctx found lottery :
  buyable lotteries ctx found lottery ->
  let lotteries' :=
    <[found := set_tickets lottery (tickets lottery ++ new_tickets ctx)]> lotteries in
  buy_tickets lotteries ctx =
  (lotteries',
   [Saved lotteries'; DisplayUpdated found]
   ++ (if buy_dm_ok ctx
       then [DirectMessage (buy_author ctx) (drawn_codes ctx)]
       else [Reply (PurchasedNoDM (buy_count ctx))])
   ++ [Reply (Purchased (buy_count ctx))]).
Proof.
  intros (Hc & Hch & Hf & Hl & Hcap). unfold buy_tickets.
  destruct (Z.leb_spec (buy_count ctx) 0) as [?|_]; [lia|].
  rewrite Hch, Z.eqb_refl. simpl negb. cbv iota.
  rewrite Hf, Hl, Hcap, buy_loop_spec. reflexivity.
Qed.

(** Any other purchase gets one reply and leaves the store alone. *)
Lemma buy_tickets_cases lotteries ctx :
  (exists found lottery, buyable lotteries ctx found lottery) \/
  (exists r, buy_tickets lotteries ctx = (lotteries, [Reply r]) /\
             is_purchased (Reply r) = false).
Proof.
  unfold buy_tickets, buyable.
  destruct (Z.leb_spec (buy_count ctx) 0) as [?|Hc]; [right; eauto|].
  destruct (Z.eqb_spec (buy_channel ctx) (buy_display_chan ctx)) as [Hch|?];
    [|right; eauto].
  simpl negb. cbv iota.
  destruct (find_lottery_message lotteries (take 50 (buy_history ctx)))
    as [found|] eqn:Hf; [|right; eauto].
  destruct (lotteries !! found) as [lottery|] eqn:Hl; [|right; eauto].
  destruct (capacity_error lottery (buy_count ctx)) as [remaining|] eqn:Hcap;
    [right; eauto|].
  left. exists found, lottery. auto.
Qed.

Lemma accepted_sells lotteries ctx found lottery :
  buyable lotteries ctx found lottery ->
  accepted (snd (buy_tickets lotteries ctx)) = true.
Proof.
  intros H. rewrite (buy_tickets_sells _ _ _ _ H). simpl.
  destruct (buy_dm_ok ctx); reflexivity.
Qed.

Lemma buyable_unique lotteries ctx f1 l1 f2 l2 :
  buyable lotteries ctx f1 l1 -> buyable lotteries ctx f2 l2 -> f1 = f2 /\ l1 = l2.
Proof.
  intros (_ & _ & Hf1 & Hl1 & _) (_ & _ & Hf2 & Hl2 & _).
  assert (f1 = f2) by congruence. subst. split; congruence.
Qed.

Lemma finalize_lottery_store lotteries m r :
  fst (finalize_lottery lotteries m r) = delete m lotteries.
Proof.
  unfold finalize_lottery. destruct (lotteries !! m) as [l|]; [|reflexivity].
  destruct (tickets l); [reflexivity|].
  destruct ((_ :: _) !! r); reflexivity.
Qed.

Lemma finalize_lottery_absent (lotteries : Store) m r :
  lotteries !! m = None -> finalize_lottery lotteries m r = (lotteries, []).
Proof.
  intros H. unfold finalize_lottery. rewrite H, (delete_id lotteries m H). reflexivity.
Qed.

Lemma admin_end_store lotteries p m r :
  fst (admin_end lotteries p m r) = lotteries \/
  fst (admin_end lotteries p m r) = delete m lotteries.
Proof.
  unfold admin_end. destruct p; simpl; [|left; reflexivity].
  destruct (lotteries !! m); [|left; reflexivity].
  pose proof (finalize_lottery_store lotteries m r) as H.
  destruct (finalize_lottery lotteries m r). right. exact H.
Qed.

(** [lottery_create] either replies and changes nothing or stores a
    lottery without tickets. *)
Lemma lottery_create_cases lotteries ctx :
  (exists e, lottery_create lotteries ctx = (lotteries, [e]) /\
             e <> Reply LotteryCreated) \/
  (exists l seconds,
      tickets l = [] /\
      lottery_create lotteries ctx =
      (<[cr_msg_id ctx := l]> lotteries,
       [Saved (<[cr_msg_id ctx := l]> lotteries);
        TimerStarted (cr_msg_id ctx) seconds; Reply LotteryCreated])).
Proof.
  unfold lottery_create.
  destruct (negb _); [left; eexists; split; [reflexivity | discriminate]|].
  destruct (cr_rest ctx) as [[|? ?]|];
    try (left; eexists; split; [reflexivity | discriminate]).
  destruct (cr_parts ctx) as [[|i [|d [|pr more]]]|];
    try (left; eexists; split; [reflexivity | discriminate]).
  destruct (max_tickets_arg more);
    [|left; eexists; split; [reflexivity | discriminate]].
  destruct (parse_duration d) as [seconds|];
    [|left; eexists; split; [reflexivity | discriminate]].
  destruct (datetime_add (cr_now ctx) seconds) as [ends|];
    [|left; eexists; split; [reflexivity | discriminate]].
  destruct (cr_timestamp ctx ends);
    [|left; eexists; split; [reflexivity | discriminate]].
  right. eexists _, seconds. split; [|reflexivity]. reflexivity.
Qed.

End StoreFacts.

(** ** Capacity *)

Section Capacity.

Lemma capacity_error_None l count :
  capacity_error l count = None ->
  forall M, max_tickets l = Some M -> sold l + count <= M.
Proof.
  unfold capacity_error, sold. intros H M HM. rewrite HM in H.
  destruct (Z.gtb_spec (Z.of_nat (length (tickets l)) + count) M); [discriminate | lia].
Qed.

Lemma capacity_error_Some l count M :
  max_tickets l = Some M -> sold l + count > M ->
  capacity_error l count = Some (M - sold l).
Proof.
  unfold capacity_error, sold. intros -> H.
  destruct (Z.gtb_spec (Z.of_nat (length (tickets l)) + count) M); [reflexivity | lia].
Qed.

Lemma length_new_tickets ctx :
  0 < buy_count ctx -> Z.of_nat (length (new_tickets ctx)) = buy_count ctx.
Proof.
  intros H. unfold new_tickets, drawn_codes.
  rewrite !length_map, length_seq. lia.
Qed.

Lemma capacity_inv_empty : capacity_inv ∅.
Proof. intros m l H. rewrite lookup_empty in H. discriminate. Qed.

Lemma capacity_inv_delete lotteries m :
  capacity_inv lotteries -> capacity_inv (delete m lotteries).
Proof.
  intros H k l Hk. apply lookup_delete_Some in Hk as [_ Hk]. exact (H k l Hk).
Qed.

Lemma capacity_inv_insert lotteries m l :
  capacity_inv lotteries -> within_capacity l -> capacity_inv (<[m := l]> lotteries).
Proof.
  intros H Hl k l' Hk. apply lookup_insert_Some in Hk as [[_ <-]|[_ Hk]];
    [exact Hl | exact (H k l' Hk)].
Qed.

Lemma capacity_inv_step lotteries op :
  capacity_inv lotteries -> capacity_inv (fst (step lotteries op)).
Proof.
  intros H. destruct op as [ctx|ctx|m r|p m r]; simpl.
  - destruct (lottery_create_cases lotteries ctx) as [(e & -> & _)|(l & secs & Ht & ->)];
      [exact H|].
    apply capacity_inv_insert; [exact H|].
    intros M _ HM. unfold sold. rewrite Ht. exact HM.
  - destruct (buy_tickets_cases lotteries ctx) as [(f & l & B)|(r & -> & _)];
      [|exact H].
    rewrite (buy_tickets_sells _ _ _ _ B). simpl.
    apply capacity_inv_insert; [exact H|].
    destruct B as (Hc & _ & _ & _ & Hcap).
    intros M HM _. simpl in HM.
    pose proof (capacity_error_None _ _ Hcap M HM) as Hle.
    pose proof (length_new_tickets ctx Hc) as Hn.
    unfold sold in *. simpl. rewrite length_app. lia.
  - rewrite finalize_lottery_store. apply capacity_inv_delete, H.
  - destruct (admin_end_store lotteries p m r) as [->| ->];
      [exact H | apply capacity_inv_delete, H].
Qed.

Lemma run_snoc ops : forall lotteries op,
  fst (run lotteries (ops ++ [op])) = fst (step (fst (run lotteries ops)) op).
Proof.
  induction ops as [|o ops IH]; intros lotteries op; simpl.
  - destruct (step lotteries op). reflexivity.
  - destruct (step lotteries o) as [s1 out1]. specialize (IH s1 op).
    destruct (run s1 (ops ++ [op])), (run s1 ops). simpl in *. exact IH.
Qed.

Lemma run_cons lotteries op ops :
  fst (run lotteries (op :: ops)) = fst (run (fst (step lotteries op)) ops).
Proof.
  simpl. destruct (step lotteries op) as [s1 out1]. simpl.
  destruct (run s1 ops). reflexivity.
Qed.

Lemma capacity_inv_run ops : forall lotteries,
  capacity_inv lotteries -> capacity_inv (fst (run lotteries ops)).
Proof.
  induction ops as [|op ops IH]; intros lotteries H; [exact H|].
  rewrite run_cons. apply IH, capacity_inv_step, H.
Qed.

End Capacity.

(** C1, as the code has it.  A purchase that would take a capped lottery
    past its cap [M] is refused whole: the store is returned as it was and
    the one reply reports [M - sold] tickets left.  In every store that
    creations, purchases, timers and forced endings lead to from the empty
    one, a lottery whose cap [M] is not negative holds at most [M]
    tickets. *)
Theorem capacity_respected (lotteries : Store) (ctx : BuyCtx) (found : Z)
    (lottery : Lottery) (M : Z) :
  lotteries !! found = Some lottery ->
  max_tickets lottery = Some M ->
  (0 < buy_count ctx ->
   buy_channel ctx = buy_display_chan ctx ->
   find_lottery_message lotteries (take 50 (buy_history ctx)) = Some found ->
   sold lottery + buy_count ctx > M ->
   buy_tickets lotteries ctx = (lotteries, [Reply (NotEnoughTickets (M - sold lottery))]))
  /\ (forall ops, lotteries = fst (run ∅ ops) -> 0 <= M -> sold lottery <= M).
Proof.
  intros Hl HM. split.
  - intros Hc Hch Hf Hover. unfold buy_tickets.
    destruct (Z.leb_spec (buy_count ctx) 0) as [?|_]; [lia|].
    rewrite Hch, Z.eqb_refl. simpl negb. cbv iota.
    rewrite Hf, Hl, (capacity_error_Some _ _ _ HM Hover). reflexivity.
  - intros ops -> HM0.
    exact (capacity_inv_run ops ∅ capacity_inv_empty found lottery Hl M HM HM0).
Qed.

(** C1 as stated fails for a negative cap, which [lottery_create] accepts:
    the lottery starts with no ticket, and none is more than -1. *)
Lemma capacity_negative_cap :
  ~ (forall ops m l M,
        fst (run ∅ ops) !! m = Some l -> max_tickets l = Some M -> sold l <= M).
Proof.
  intros H.
  specialize (H [OpCreate (create_cmd "Sword" "1h" "50" (Some "-1") 1000 7)] 7
                (sample_lottery (Some (-1)) [] 4600) (-1)).
  assert (E : sold (sample_lottery (Some (-1)) [] 4600) <= -1)
    by (apply H; reflexivity).
  vm_compute in E. apply E. reflexivity.
Qed.

(** The example of the specification: a cap of two, one ticket sold, and a
    request for two more. *)
Lemma capacity_respected_witness :
  let lotteries :=
    fst (run ∅ [OpCreate (create_cmd "Sword" "1h" "50" (Some "2") 1000 7);
                OpBuy (buy_cmd 11 1 [7] sample_uuids)]) in
  buy_tickets lotteries (buy_cmd 12 2 [7] sample_uuids)
  = (lotteries, [Reply (NotEnoughTickets 1)])
  /\ forall l, lotteries !! 7 = Some l -> sold l <= 2.
Proof.
  intros lotteries.
  pose (l0 := sample_lottery (Some 2) [mkTicket (lit "3F2A9C04") 11] 4600).
  assert (E : lotteries !! 7 = Some l0) by reflexivity.
  destruct (capacity_respected lotteries (buy_cmd 12 2 [7] sample_uuids) 7 l0 2
              E eq_refl) as [H1 H2].
  split.
  - apply H1; reflexivity.
  - intros l Hl. rewrite E in Hl. injection Hl as <-.
    apply (H2 [OpCreate (create_cmd "Sword" "1h" "50" (Some "2") 1000 7);
               OpBuy (buy_cmd 11 1 [7] sample_uuids)]); [reflexivity | lia].
Defined.

(** The worked example of the specification: a cap of two; one ticket for
    X; two for Y are refused with one left; one for Y; a further one is
    refused with none left. *)
Example sword_example :
  replies (snd (run ∅ [OpCreate (create_cmd "Sword" "1h" "50" (Some "2") 1000 7);
                       OpBuy (buy_cmd 11 1 [7] sample_uuids);
                       OpBuy (buy_cmd 12 2 [7] sample_uuids);
                       OpBuy (buy_cmd 12 1 [7] sample_uuids);
                       OpBuy (buy_cmd 13 1 [7] sample_uuids)]))
  = [LotteryCreated; Purchased 1; NotEnoughTickets 1; Purchased 1; NotEnoughTickets 0].
Proof. vm_compute. reflexivity. Qed.

(** ** Purchases *)

(** C9.  A purchase that goes through appends exactly [count] tickets, all
    with the buyer's id, at the end of the tickets of the lottery it found,
    which is the one [find_lottery_message] returns on the last 50 messages
    of the channel; the other fields of that lottery and all other lotteries
    stay as they were. *)
Theorem purchase_frame (lotteries : Store) (ctx : BuyCtx) :
  accepted (snd (buy_tickets lotteries ctx)) = true ->
  exists found lottery bought,
    find_lottery_message lotteries (take 50 (buy_history ctx)) = Some found /\
    lotteries !! found = Some lottery /\
    fst (buy_tickets lotteries ctx) !! found = Some bought /\
    tickets bought = tickets lottery ++ new_tickets ctx /\
    Z.of_nat (length (new_tickets ctx)) = buy_count ctx /\
    Forall (fun t => buyer_id t = buy_author ctx) (new_tickets ctx) /\
    (item bought = item lottery /\ seller_id bought = seller_id lottery /\
     ticket_price bought = ticket_price lottery /\
     max_tickets bought = max_tickets lottery /\
     end_time bought = end_time lottery /\ end_time_us bought = end_time_us lottery /\
     created_at bought = created_at lottery /\
     created_at_us bought = created_at_us lottery /\
     image_url bought = image_url lottery /\
     ticket_channel_id bought = ticket_channel_id lottery /\
     lottery_id bought = lottery_id lottery) /\
    (forall other, other <> found ->
                   fst (buy_tickets lotteries ctx) !! other = lotteries !! other).
Proof.
  intros Hacc.
  destruct (buy_tickets_cases lotteries ctx) as [(found & lottery & B)|(r & E & Hr)].
  2:{ rewrite E in Hacc. unfold accepted in Hacc. cbn [snd existsb] in Hacc.
      rewrite Hr in Hacc. discriminate. }
  exists found, lottery, (set_tickets lottery (tickets lottery ++ new_tickets ctx)).
  rewrite (buy_tickets_sells _ _ _ _ B). simpl.
  destruct B as (Hc & _ & Hf & Hl & _).
  split; [exact Hf|].
  split; [exact Hl|].
  split; [apply lookup_insert_eq|].
  split; [reflexivity|].
  split; [exact (length_new_tickets ctx Hc)|].
  split.
  { unfold new_tickets. apply Forall_map. apply Forall_true. reflexivity. }
  split; [repeat split|].
  intros other Hne. apply lookup_insert_ne. congruence.
Qed.

Lemma purchase_frame_witness :
  exists found lottery bought,
    find_lottery_message ({[ 7 := sample_lottery (Some 2) [] 4600 ]} : Store)
                         (take 50 (buy_history (buy_cmd 11 2 [9; 7] sample_uuids)))
    = Some found /\
    ({[ 7 := sample_lottery (Some 2) [] 4600 ]} : Store) !! found = Some lottery /\
    fst (buy_tickets {[ 7 := sample_lottery (Some 2) [] 4600 ]}
                     (buy_cmd 11 2 [9; 7] sample_uuids)) !! found = Some bought /\
    tickets bought = tickets lottery ++ new_tickets (buy_cmd 11 2 [9; 7] sample_uuids).
Proof.
  assert (Hacc : accepted (snd (buy_tickets {[ 7 := sample_lottery (Some 2) [] 4600 ]}
                                             (buy_cmd 11 2 [9; 7] sample_uuids))) = true)
    by (vm_compute; reflexivity).
  destruct (purchase_frame _ _ Hacc) as (found & lottery & bought & H0 & H1 & H2 & H3 & _).
  exists found, lottery, bought. auto.
Defined.

(** ** Settlement *)

Section Settlement.

Lemma absent_step (lotteries : Store) m op :
  lotteries !! m = None -> posts m op = false ->
  fst (step lotteries op) !! m = None.
Proof.
  intros H Hp. destruct op as [ctx|ctx|k r|p k r]; simpl in *.
  - destruct (lottery_create_cases lotteries ctx) as [(e & -> & _)|(l & secs & _ & ->)];
      [exact H|].
    simpl. rewrite lookup_insert_ne; [exact H|].
    intros E. rewrite E, Z.eqb_refl in Hp. discriminate.
  - destruct (buy_tickets_cases lotteries ctx) as [(f & l & B)|(r & -> & _)];
      [|exact H].
    rewrite (buy_tickets_sells _ _ _ _ B). simpl.
    destruct B as (_ & _ & _ & Hl & _).
    rewrite lookup_insert_ne; [exact H | congruence].
  - rewrite finalize_lottery_store. apply lookup_delete_None. auto.
  - destruct (admin_end_store lotteries p k r) as [->| ->];
      [exact H | apply lookup_delete_None; auto].
Qed.

Lemma absent_run ops : forall (lotteries : Store) m,
  lotteries !! m = None -> forallb (fun op => negb (posts m op)) ops = true ->
  fst (run lotteries ops) !! m = None.
Proof.
  induction ops as [|op ops IH]; intros lotteries m H Hops; [exact H|].
  simpl in Hops. apply andb_true_iff in Hops as [Hop Hops].
  rewrite run_cons. apply IH; [|exact Hops].
  apply absent_step; [exact H|]. destruct (posts m op); [discriminate | reflexivity].
Qed.

End Settlement.

(** C2.  [finalize_lottery] takes the lottery out of the store whatever it
    then decides.  After that, and after any further commands that do not
    post a lottery under the same message id, the lottery is absent: a
    second timer returns at once, with the store as it is and nothing
    announced, and a second [!endlottery] only answers that there is no
    such lottery. *)
Theorem settled_once (lotteries : Store) (m : Z) (r r' : nat) (ops : list Op) :
  forallb (fun op => negb (posts m op)) ops = true ->
  let settled := fst (finalize_lottery lotteries m r) in
  let later := fst (run settled ops) in
  settled = delete m lotteries /\
  later !! m = None /\
  finalize_lottery later m r' = (later, []) /\
  admin_end later true m r' = (later, [Reply NoLotteryWithThatId]).
Proof.
  intros Hops settled later.
  assert (Hs : settled = delete m lotteries) by apply finalize_lottery_store.
  assert (Hl : later !! m = None).
  { apply absent_run; [|exact Hops]. rewrite Hs. apply lookup_delete_eq. }
  split; [exact Hs|]. split; [exact Hl|]. split.
  - apply finalize_lottery_absent, Hl.
  - unfold admin_end. simpl. rewrite Hl. reflexivity.
Qed.

Lemma settled_once_witness :
  let lotteries : Store :=
    {[ 7 := sample_lottery None [mkTicket (lit "3F2A9C04") 11] 4600 ]} in
  let later :=
    fst (run (fst (finalize_lottery lotteries 7 0))
             [OpBuy (buy_cmd 12 1 [7] sample_uuids); OpTimerFire 7 0]) in
  finalize_lottery later 7 0 = (later, []).
Proof.
  intros lotteries later.
  exact (proj1 (proj2 (proj2
    (settled_once lotteries 7 0 0
       [OpBuy (buy_cmd 12 1 [7] sample_uuids); OpTimerFire 7 0] eq_refl)))).
Defined.

(** ** Ticket codes *)

Lemma codes_after_purchase lottery ctx :
  codes (set_tickets lottery (tickets lottery ++ new_tickets ctx))
  = codes lottery ++ drawn_codes ctx.
Proof.
  unfold codes, new_tickets. simpl. rewrite map_app, map_map. simpl.
  rewrite map_id. reflexivity.
Qed.

(** C3, as the code has it.  The codes of a purchase are the upper-cased
    first eight digits of the UUIDs drawn, appended as they come; nothing
    compares them with the codes the lottery has or with each other.  The
    codes of the lottery are pairwise distinct after the purchase exactly
    when they were before, the drawn codes are distinct, and none of them
    was in use. *)
Theorem ticket_codes (lotteries : Store) (ctx : BuyCtx) (found : Z) (lottery : Lottery) :
  buyable lotteries ctx found lottery ->
  exists bought,
    fst (buy_tickets lotteries ctx) !! found = Some bought /\
    codes bought = codes lottery ++ drawn_codes ctx /\
    (NoDup (codes bought) <->
     NoDup (codes lottery) /\ NoDup (drawn_codes ctx) /\
     forall c, c ∈ drawn_codes ctx -> c ∉ codes lottery).
Proof.
  intros B. rewrite (buy_tickets_sells _ _ _ _ B). simpl.
  eexists. split; [apply lookup_insert_eq|].
  split; [apply codes_after_purchase|].
  rewrite codes_after_purchase, NoDup_app. split.
  - intros (H1 & H2 & H3). repeat split; try assumption.
    intros c Hc Hold. exact (H2 c Hold Hc).
  - intros (H1 & H2 & H3). repeat split; try assumption.
    intros c Hold Hc. exact (H3 c Hc Hold).
Qed.

Lemma ticket_codes_witness :
  exists bought,
    fst (buy_tickets {[ 7 := sample_lottery None [] 4600 ]}
                     (buy_cmd 11 2 [7] sample_uuids)) !! 7 = Some bought /\
    codes bought = [lit "3F2A9C04"; lit "B7E1D05A"].
Proof.
  assert (B : buyable {[ 7 := sample_lottery None [] 4600 ]}
                      (buy_cmd 11 2 [7] sample_uuids) 7 (sample_lottery None [] 4600)).
  { repeat split; vm_compute; reflexivity. }
  destruct (ticket_codes _ _ _ _ B) as (bought & H1 & H2 & _).
  exists bought. split; [exact H1 | exact H2].
Defined.

(** C3 as stated fails: two UUIDs that share their first eight digits give
    one purchase the same code twice. *)
Lemma duplicate_ticket_codes :
  ~ (forall ops m l, fst (run ∅ ops) !! m = Some l -> NoDup (codes l)).
Proof.
  intros H.
  specialize (H [OpCreate (create_cmd "Sword" "1h" "50" None 1000 7);
                 OpBuy (buy_cmd 11 2 [7] clashing_uuids)] 7
                (sample_lottery None [mkTicket (lit "DEADBEEF") 11;
                                      mkTicket (lit "DEADBEEF") 11] 4600)
                eq_refl).
  apply NoDup_cons in H as [Hin _]. apply Hin. left.
Qed.

(** ** The deadline *)

Section Deadline.

Lemma set_end_time_back l e : set_end_time (set_end_time l e) (end_time l) = l.
Proof. destruct l; reflexivity. Qed.

Lemma buyable_set_end_time (lotteries : Store) ctx m l e found lottery :
  lotteries !! m = Some l ->
  buyable lotteries ctx found lottery ->
  exists lottery', buyable (<[m := set_end_time l e]> lotteries) ctx found lottery'.
Proof.
  intros Hm (Hc & Hch & Hf & Hl & Hcap).
  assert (Hdom : forall k, is_Some (lotteries !! k) <->
                           is_Some (<[m := set_end_time l e]> lotteries !! k)).
  { intros k. destruct (decide (m = k)) as [<-|Hne].
    - rewrite lookup_insert_eq, Hm. split; eauto.
    - rewrite lookup_insert_ne by exact Hne. reflexivity. }
  destruct (decide (m = found)) as [<-|Hne].
  - exists (set_end_time l e). repeat split; try assumption.
    + rewrite <- (find_lottery_message_dom _ _ _ Hdom). exact Hf.
    + apply lookup_insert_eq.
    + assert (lottery = l) by congruence. subst. exact Hcap.
  - exists lottery. repeat split; try assumption.
    + rewrite <- (find_lottery_message_dom _ _ _ Hdom). exact Hf.
    + rewrite lookup_insert_ne by exact Hne. exact Hl.
Qed.

Lemma accepted_iff lotteries ctx :
  accepted (snd (buy_tickets lotteries ctx)) = true <->
  exists found lottery, buyable lotteries ctx found lottery.
Proof.
  split.
  - intros Hacc.
    destruct (buy_tickets_cases lotteries ctx) as [B|(r & E & Hr)]; [exact B|].
    rewrite E in Hacc. unfold accepted in Hacc. cbn [snd existsb] in Hacc.
    rewrite Hr in Hacc. discriminate.
  - intros (found & lottery & B). exact (accepted_sells _ _ _ _ B).
Qed.

End Deadline.

(** C4, as the code has it.  A purchase goes through exactly when the count
    is positive, the command comes from the display channel, one of the
    last 50 messages there is a lottery still in the store, and the cap
    leaves room.  No clock is read and the end time of the lottery plays no
    part: with any other end time the purchase is accepted or refused just
    the same.  A lottery stops selling when finalization removes it: no
    purchase finds it again, none puts it back in the store, and a purchase
    that would otherwise qualify is answered with "no active lottery" when
    no other message of the last 50 is a lottery of the store.  When one is,
    the purchase goes to that lottery instead. *)
Theorem purchase_acceptance (lotteries : Store) (ctx : BuyCtx) :
  (accepted (snd (buy_tickets lotteries ctx)) = true <->
   exists found lottery, buyable lotteries ctx found lottery)
  /\ (forall m l e,
         lotteries !! m = Some l ->
         accepted (snd (buy_tickets (<[m := set_end_time l e]> lotteries) ctx))
         = accepted (snd (buy_tickets lotteries ctx)))
  /\ (forall m r,
         let settled := fst (finalize_lottery lotteries m r) in
         find_lottery_message settled (take 50 (buy_history ctx)) <> Some m
         /\ fst (buy_tickets settled ctx) !! m = None
         /\ (0 < buy_count ctx ->
             buy_channel ctx = buy_display_chan ctx ->
             Forall (fun k => k <> m -> lotteries !! k = None)
                    (take 50 (buy_history ctx)) ->
             buy_tickets settled ctx = (settled, [Reply NoActiveLotteryInChannel]))).
Proof.
  split; [apply accepted_iff|]. split.
  - intros m l e Hm.
    destruct (accepted (snd (buy_tickets lotteries ctx))) eqn:A.
    + apply accepted_iff in A as (found & lottery & B).
      apply accepted_iff. exists found.
      exact (buyable_set_end_time _ _ _ _ e _ _ Hm B).
    + destruct (accepted (snd (buy_tickets (<[m := set_end_time l e]> lotteries) ctx)))
        eqn:A'; [|reflexivity].
      apply accepted_iff in A' as (found & lottery & B).
      assert (Hm' : <[m := set_end_time l e]> lotteries !! m = Some (set_end_time l e))
        by apply lookup_insert_eq.
      destruct (buyable_set_end_time _ _ _ _ (end_time l) _ _ Hm' B) as [l' B'].
      rewrite insert_insert_eq, set_end_time_back, (insert_id _ _ _ Hm) in B'.
      assert (A2 : accepted (snd (buy_tickets lotteries ctx)) = true)
        by (apply accepted_iff; eauto).
      congruence.
  - intros m r settled.
    assert (Hgone : settled !! m = None).
    { unfold settled. rewrite finalize_lottery_store. apply lookup_delete_eq. }
    assert (Hscan : find_lottery_message settled (take 50 (buy_history ctx)) <> Some m).
    { intros Hf. apply find_lottery_message_Some in Hf as [l Hl]. congruence. }
    split; [exact Hscan|]. split.
    + destruct (buy_tickets_cases settled ctx) as [(f & l & B)|(e & -> & _)];
        [|exact Hgone].
      rewrite (buy_tickets_sells _ _ _ _ B). simpl.
      destruct B as (_ & _ & Hf & _).
      rewrite lookup_insert_ne; [exact Hgone | congruence].
    + intros Hc Hch Hw.
      assert (Hnone : Forall (fun k => settled !! k = None) (take 50 (buy_history ctx))).
      { eapply Forall_impl; [exact Hw|]. intros k Hk. simpl in Hk.
        unfold settled. rewrite finalize_lottery_store.
        destruct (decide (k = m)) as [->|Hne];
          [apply lookup_delete_eq | rewrite lookup_delete_ne by congruence; auto]. }
      pose proof (find_lottery_message_skip settled _ [] Hnone) as E.
      rewrite app_nil_r in E. simpl in E.
      unfold buy_tickets.
      destruct (buy_count ctx <=? 0) eqn:E0; [apply Z.leb_le in E0; lia|].
      rewrite Hch, Z.eqb_refl. simpl. rewrite E. reflexivity.
Qed.

Lemma purchase_acceptance_witness :
  accepted (snd (buy_tickets {[ 7 := set_end_time (sample_lottery None [] 4600) 0 ]}
                             (buy_cmd 11 1 [7] sample_uuids)))
  = accepted (snd (buy_tickets {[ 7 := sample_lottery None [] 4600 ]}
                               (buy_cmd 11 1 [7] sample_uuids)))
  /\ buy_tickets (fst (finalize_lottery {[ 7 := sample_lottery None [] 4600 ]} 7 0))
                 (buy_cmd 11 1 [7] sample_uuids)
     = (fst (finalize_lottery {[ 7 := sample_lottery None [] 4600 ]} 7 0),
        [Reply NoActiveLotteryInChannel]).
Proof.
  destruct (purchase_acceptance {[ 7 := sample_lottery None [] 4600 ]}
                                (buy_cmd 11 1 [7] sample_uuids)) as (_ & H & G).
  split.
  - specialize (H 7 (sample_lottery None [] 4600) 0 (lookup_singleton_eq _ _)).
    rewrite insert_singleton_eq in H. exact H.
  - destruct (G 7 0%nat) as (_ & _ & K). apply K.
    + simpl. lia.
    + reflexivity.
    + simpl. constructor; [|constructor]. intros E. exfalso. apply E. reflexivity.
Defined.

(** With an older lottery still active among the last 50 messages, the
    purchase that follows the finalization of lottery 7 is accepted and
    sells a ticket of lottery 3. *)
Example purchase_goes_to_older_lottery :
  let settled :=
    fst (finalize_lottery {[ 7 := sample_lottery None [] 4600;
                             3 := sample_lottery None [] 9000 ]} 7 0) in
  let after := buy_tickets settled (buy_cmd 11 1 [7; 3] sample_uuids) in
  accepted (snd after) = true
  /\ fst after !! 7 = None
  /\ (length <$> (tickets <$> fst after !! 3)) = Some 1%nat.
Proof. vm_compute. repeat split; reflexivity. Qed.

(** C4 as stated fails: a lottery created at second 1000 for ten seconds is
    still in the store at second 2000 when its timer has not fired, and a
    purchase then goes through. *)
Lemma purchase_after_deadline :
  ~ (forall ops now ctx found lottery,
        find_lottery_message (fst (run ∅ ops)) (take 50 (buy_history ctx)) = Some found ->
        fst (run ∅ ops) !! found = Some lottery ->
        end_time lottery <= now ->
        accepted (snd (buy_tickets (fst (run ∅ ops)) ctx)) = false).
Proof.
  intros H.
  specialize (H [OpCreate (create_cmd "Sword" "10s" "50" None 1000 7)] 2000
                (buy_cmd 11 1 [7] sample_uuids) 7 (sample_lottery None [] 1010)).
  assert (E : accepted (snd (buy_tickets
                (fst (run ∅ [OpCreate (create_cmd "Sword" "10s" "50" None 1000 7)]))
                (buy_cmd 11 1 [7] sample_uuids))) = false).
  { apply H; [reflexivity | reflexivity | simpl; lia]. }
  vm_compute in E. discriminate.
Qed.

(** ** The draw *)

Section Draw.

Lemma filter_seq_lookup {A} (f : nat -> bool) (P : A -> bool) (l : list A) :
  forall start,
    (forall i x, l !! i = Some x -> f (start + i)%nat = P x) ->
    length (List.filter f (seq start (length l))) = length (List.filter P l).
Proof.
  induction l as [|a l IH]; intros start H; simpl; [reflexivity|].
  rewrite <- (H O a eq_refl), Nat.add_0_r.
  assert (G : length (List.filter f (seq (S start) (length l)))
              = length (List.filter P l)).
  { apply IH. intros i x Hi. rewrite <- (H (S i) x Hi). f_equal. lia. }
  destruct (f start); simpl; rewrite G; reflexivity.
Qed.

Lemma finalize_lottery_winner (lotteries : Store) m lottery r t :
  lotteries !! m = Some lottery -> tickets lottery !! r = Some t ->
  finalize_lottery lotteries m r =
  (delete m lotteries,
   [Announce (Winner (buyer_id t) (code t) (item lottery) (seller_id lottery));
    Saved (delete m lotteries)]).
Proof.
  intros Hl Ht. unfold finalize_lottery. rewrite Hl.
  destruct (tickets lottery) as [|t0 ts] eqn:E; [discriminate|].
  rewrite Ht. reflexivity.
Qed.

End Draw.

(** C5.  Finalizing a lottery without tickets announces [NoSale], which
    names the item and no winner.  With tickets and a draw [r] below their
    number, it announces as winner the buyer and the code of the ticket at
    position [r] of the whole sequence: every ticket is the winner for one
    value of the draw, so among the equally likely draws a buyer wins as
    many as they hold tickets. *)
Theorem finalization_outcome (lotteries : Store) (m : Z) (lottery : Lottery) :
  lotteries !! m = Some lottery ->
  (tickets lottery = [] ->
   forall r, finalize_lottery lotteries m r =
             (delete m lotteries,
              [Announce (NoSale (item lottery)); Saved (delete m lotteries)]))
  /\ (forall r, (r < length (tickets lottery))%nat ->
        exists t, tickets lottery !! r = Some t /\
          finalize_lottery lotteries m r =
          (delete m lotteries,
           [Announce (Winner (buyer_id t) (code t) (item lottery) (seller_id lottery));
            Saved (delete m lotteries)]))
  /\ (forall b, draws_won_by lotteries m (length (tickets lottery)) b
                = tickets_held_by b (tickets lottery)).
Proof.
  intros Hl. split; [|split].
  - intros Hempty r. unfold finalize_lottery. rewrite Hl, Hempty. reflexivity.
  - intros r Hr. destruct (lookup_lt_is_Some_2 _ _ Hr) as [t Ht].
    exists t. split; [exact Ht|]. exact (finalize_lottery_winner _ _ _ _ _ Hl Ht).
  - intros b. unfold draws_won_by, tickets_held_by.
    apply filter_seq_lookup. intros i t Ht. simpl.
    rewrite (finalize_lottery_winner _ _ _ _ _ Hl Ht). reflexivity.
Qed.

(** Tickets [A; A; B]: buyer A wins two of the three draws. *)
Lemma finalization_outcome_witness :
  let lottery := sample_lottery None [mkTicket (lit "3F2A9C04") 11;
                                      mkTicket (lit "B7E1D05A") 11;
                                      mkTicket (lit "09AF34C1") 12] 4600 in
  snd (finalize_lottery {[ 7 := lottery ]} 7 2)
  = [Announce (Winner 12 (lit "09AF34C1") (lit "Sword") 1); Saved ∅]
  /\ draws_won_by {[ 7 := lottery ]} 7 3 11 = 2%nat.
Proof.
  intros lottery.
  destruct (finalization_outcome {[ 7 := lottery ]} 7 lottery (lookup_singleton_eq _ _))
    as (_ & H2 & H3).
  split.
  - destruct (H2 2%nat) as (t & Ht & ->); [simpl; lia|].
    injection Ht as <-. simpl. rewrite delete_singleton_eq. reflexivity.
  - exact (H3 11).
Defined.

(** ** Durations *)

Section CreateFacts.

Lemma lottery_create_well_formed lotteries ctx item_name d price more :
  well_formed_create ctx item_name d price more ->
  lottery_create lotteries ctx =
  match max_tickets_arg more with
  | None => (lotteries, [Reply MaxTicketsMustBeNumber])
  | Some cap =>
      match parse_duration d with
      | None => (lotteries, [Reply CouldntParseDuration])
      | Some seconds =>
          match datetime_add (cr_now ctx) seconds with
          | None => (lotteries, [Raised OverflowError])
          | Some ends =>
              match cr_timestamp ctx ends with
              | None => (lotteries, [Raised ValueError])
              | Some _ =>
                  (<[cr_msg_id ctx := new_lottery ctx item_name price cap ends]> lotteries,
                   [Saved (<[cr_msg_id ctx := new_lottery ctx item_name price cap ends]>
                             lotteries);
                    TimerStarted (cr_msg_id ctx) seconds; Reply LotteryCreated])
              end
          end
      end
  end.
Proof.
  intros (Ha & (c & rest & Hr) & Hp). unfold lottery_create.
  rewrite Ha, Hr, Hp. rewrite bool_decide_eq_true_2 by reflexivity.
  reflexivity.
Qed.

(** Without a duration that parses no lottery is stored. *)
Lemma lottery_create_bad_duration lotteries ctx parts d :
  cr_parts ctx = Some parts -> parts !! 1%nat = Some d -> parse_duration d = None ->
  exists r, lottery_create lotteries ctx = (lotteries, [Reply r]) /\ r <> LotteryCreated.
Proof.
  intros Hp Hd Hparse. unfold lottery_create.
  destruct (negb _); [eexists; split; [reflexivity | discriminate]|].
  destruct (cr_rest ctx) as [[|? ?]|];
    try (eexists; split; [reflexivity | discriminate]).
  rewrite Hp.
  destruct parts as [|i [|d' [|pr more]]];
    try (eexists; split; [reflexivity | discriminate]).
  simpl in Hd. injection Hd as ->.
  destruct (max_tickets_arg more);
    [|eexists; split; [reflexivity | discriminate]].
  rewrite Hparse. eexists; split; [reflexivity | discriminate].
Qed.

End CreateFacts.

(** C6, as the code has it.  When [int] reads [p] as [n], the durations
    [p] followed by [s], [m] or [h] are [n], [60 n] and [3600 n] seconds and
    [p] alone is [n] seconds; whatever [p] is, a duration with a suffix is
    what [int] makes of [p] without its leading white space, times the
    unit.  A duration that does not parse makes
    [lottery_create] reply and store nothing, with the reply that the
    duration could not be parsed once the parts before it are in order; a
    timer is only ever started with a number of seconds that did parse.  A
    negative number parses like any other: when the end time, that many
    seconds before the clock reading of line 300, is a date the calendar
    has and one the platform can turn into a timestamp, the lottery is
    stored with that end time and with the later clock reading of line 312
    as its creation time; when the platform cannot, the command ends in a
    [ValueError] and nothing is stored. *)
Theorem duration_parsing :
  (forall p n, py_int p = Some n ->
      parse_duration (p ++ lit "s") = Some n /\
      parse_duration (p ++ lit "m") = Some (n * 60) /\
      parse_duration (p ++ lit "h") = Some (n * 3600) /\
      parse_duration p = Some n)
  /\ (forall p,
        parse_duration (p ++ lit "s") = py_int (lstrip p) /\
        parse_duration (p ++ lit "m") = (fun n => n * 60) <$> py_int (lstrip p) /\
        parse_duration (p ++ lit "h") = (fun n => n * 3600) <$> py_int (lstrip p))
  /\ (forall lotteries ctx parts d,
        cr_parts ctx = Some parts -> parts !! 1%nat = Some d ->
        parse_duration d = None ->
        exists r, lottery_create lotteries ctx = (lotteries, [Reply r]) /\
                  r <> LotteryCreated)
  /\ (forall lotteries ctx item_name d price more cap,
        well_formed_create ctx item_name d price more ->
        max_tickets_arg more = Some cap ->
        parse_duration d = None ->
        lottery_create lotteries ctx = (lotteries, [Reply CouldntParseDuration]))
  /\ (forall lotteries ctx item_name d price more cap seconds,
        well_formed_create ctx item_name d price more ->
        max_tickets_arg more = Some cap ->
        parse_duration d = Some seconds ->
        MIN_DATETIME <= cr_now ctx + seconds <= MAX_DATETIME ->
        (forall ts,
            cr_timestamp ctx (cr_now ctx + seconds) = Some ts ->
            lottery_create lotteries ctx =
            (<[cr_msg_id ctx :=
                 new_lottery ctx item_name price cap (cr_now ctx + seconds)]> lotteries,
             [Saved (<[cr_msg_id ctx :=
                         new_lottery ctx item_name price cap (cr_now ctx + seconds)]>
                       lotteries);
              TimerStarted (cr_msg_id ctx) seconds; Reply LotteryCreated]))
        /\ (cr_timestamp ctx (cr_now ctx + seconds) = None ->
            lottery_create lotteries ctx = (lotteries, [Raised ValueError]))).
Proof.
  split; [|split; [|split; [|split]]].
  - intros p n H. pose proof (py_int_lstrip p n H) as G.
    rewrite parse_duration_s, parse_duration_m, parse_duration_h, G.
    repeat split. exact (parse_duration_bare p n H).
  - intros p. rewrite parse_duration_s, parse_duration_m, parse_duration_h.
    repeat split.
  - intros lotteries ctx parts d. apply lottery_create_bad_duration.
  - intros lotteries ctx item_name d price more cap W Hcap Hparse.
    rewrite (lottery_create_well_formed _ _ _ _ _ _ W), Hcap, Hparse. reflexivity.
  - intros lotteries ctx item_name d price more cap seconds W Hcap Hparse [Hlo Hhi].
    rewrite (lottery_create_well_formed _ _ _ _ _ _ W), Hcap, Hparse.
    unfold datetime_add.
    destruct (Z.leb_spec MIN_DATETIME (cr_now ctx + seconds)); [|lia].
    destruct (Z.leb_spec (cr_now ctx + seconds) MAX_DATETIME); [|lia].
    cbn [andb]. split.
    + intros ts Hts. rewrite Hts. reflexivity.
    + intros Hts. rewrite Hts. reflexivity.
Qed.

Lemma duration_parsing_witness :
  parse_duration (lit " 10 " ++ lit "m") = Some 600
  /\ fst (lottery_create ∅ (create_cmd "Sword" "soon" "50" None 1000 7)) = ∅
  /\ fst (lottery_create ∅ (create_cmd "Sword" "-5m" "50" None 1000 7)) !! 7
     = Some (sample_lottery None [] 700)
  /\ lottery_create ∅ (create_cmd "Sword" "5s" "50" None (-62135596790) 7)
     = (∅, [Raised ValueError]).
Proof.
  destruct duration_parsing as (H1 & _ & H2 & H3 & H4).
  assert (W : forall d now, well_formed_create (create_cmd "Sword" d "50" None now 7)
                              (lit "Sword") (lit d) (lit "50") []).
  { intros d now. split; [reflexivity|]. split; [|reflexivity].
    eexists _, _. reflexivity. }
  split; [|split; [|split]].
  - destruct (H1 (lit " 10 ") 10 eq_refl) as (_ & Hm & _). exact Hm.
  - rewrite (H3 ∅ _ _ _ _ _ None (W "soon" 1000)); reflexivity.
  - destruct (H4 ∅ _ _ _ _ _ None (-300) (W "-5m" 1000)) as [Hok _];
      [reflexivity | reflexivity | unfold MIN_DATETIME, MAX_DATETIME; simpl; lia |].
    rewrite (Hok 700 eq_refl). apply lookup_insert_eq.
  - destruct (H4 ∅ _ _ _ _ _ None 5 (W "5s" (-62135596790))) as [_ Hbad];
      [reflexivity | reflexivity | unfold MIN_DATETIME, MAX_DATETIME; simpl; lia |].
    apply Hbad. reflexivity.
Defined.

(** C6 as stated fails for negative input: [-5m] parses to -300 seconds and
    the lottery is stored. *)
Lemma negative_duration_accepted :
  ~ (forall lotteries ctx parts d n,
        cr_parts ctx = Some parts -> parts !! 1%nat = Some d ->
        parse_duration d = Some n -> n < 0 ->
        fst (lottery_create lotteries ctx) = lotteries).
Proof.
  intros H.
  specialize (H ∅ (create_cmd "Sword" "-5m" "50" None 1000 7)
                [lit "Sword"; lit "-5m"; lit "50"] (lit "-5m") (-300)
                eq_refl eq_refl eq_refl eq_refl).
  assert (E : fst (lottery_create ∅ (create_cmd "Sword" "-5m" "50" None 1000 7)) !! 7
              = Some (sample_lottery None [] 700)) by reflexivity.
  rewrite H, lookup_empty in E. discriminate.
Qed.

(** C10.  [parse_duration] sees its argument only after [strip] and
    [lower]: the result is that of the normal form, the three unit letters
    count in either case, and white space around the string changes
    nothing.  The value is the one of the number read: when [int] reads [s]
    as [n], then [s] followed by a unit letter of either case, with white
    space before and after, is [n] seconds, [n] minutes or [n] hours, and
    [s] alone is [n] seconds. *)
Theorem duration_normalization (s : str) :
  parse_duration s = parse_duration (lower (strip s))
  /\ parse_duration (s ++ lit "S") = parse_duration (s ++ lit "s")
  /\ parse_duration (s ++ lit "M") = parse_duration (s ++ lit "m")
  /\ parse_duration (s ++ lit "H") = parse_duration (s ++ lit "h")
  /\ (forall ws ws', spaces ws -> spaces ws' ->
                     parse_duration (ws ++ s ++ ws') = parse_duration s)
  /\ (forall ws ws' n, spaces ws -> spaces ws' -> py_int s = Some n ->
         parse_duration (ws ++ (s ++ lit "s") ++ ws') = Some n
         /\ parse_duration (ws ++ (s ++ lit "S") ++ ws') = Some n
         /\ parse_duration (ws ++ (s ++ lit "m") ++ ws') = Some (n * 60)
         /\ parse_duration (ws ++ (s ++ lit "M") ++ ws') = Some (n * 60)
         /\ parse_duration (ws ++ (s ++ lit "h") ++ ws') = Some (n * 3600)
         /\ parse_duration (ws ++ (s ++ lit "H") ++ ws') = Some (n * 3600)
         /\ parse_duration (ws ++ s ++ ws') = Some n).
Proof.
  assert (Suffix : forall U u, lower_char U = lower_char u ->
             parse_duration (s ++ [U]) = parse_duration (s ++ [u])).
  { intros U u H.
    rewrite <- (parse_duration_lower (s ++ [U])), <- (parse_duration_lower (s ++ [u])).
    unfold lower. rewrite !map_app. simpl. rewrite H. reflexivity. }
  assert (Around : forall t ws ws', spaces ws -> spaces ws' ->
             parse_duration (ws ++ t ++ ws') = parse_duration t).
  { intros t ws ws' H H'. unfold parse_duration. rewrite (strip_spaces _ _ _ H H').
    reflexivity. }
  split; [apply eq_sym, parse_duration_normal|].
  split; [apply Suffix; reflexivity|].
  split; [apply Suffix; reflexivity|].
  split; [apply Suffix; reflexivity|].
  split; [apply Around|].
  intros ws ws' n H H' Hn.
  pose proof (py_int_lstrip _ _ Hn) as Hl.
  assert (Es : parse_duration (s ++ lit "s") = Some n)
    by (rewrite parse_duration_s; exact Hl).
  assert (Em : parse_duration (s ++ lit "m") = Some (n * 60))
    by (rewrite parse_duration_m, Hl; reflexivity).
  assert (Eh : parse_duration (s ++ lit "h") = Some (n * 3600))
    by (rewrite parse_duration_h, Hl; reflexivity).
  rewrite !(Around _ ws ws' H H').
  split; [exact Es|].
  split; [exact (eq_trans (Suffix "S"%char "s"%char eq_refl) Es)|].
  split; [exact Em|].
  split; [exact (eq_trans (Suffix "M"%char "m"%char eq_refl) Em)|].
  split; [exact Eh|].
  split; [exact (eq_trans (Suffix "H"%char "h"%char eq_refl) Eh)|].
  apply parse_duration_bare, Hn.
Qed.

Lemma duration_normalization_witness :
  parse_duration (lit "  " ++ lit "2H" ++ lit " ") = parse_duration (lit "2H")
  /\ parse_duration (lit " 2H ") = Some 7200
  /\ parse_duration (lit " 15M") = Some 900
  /\ parse_duration (lit "+4_0 ") = Some 40.
Proof.
  split.
  - destruct (duration_normalization (lit "2H")) as (_ & _ & _ & _ & H & _).
    apply H; repeat constructor.
  - destruct (duration_normalization (lit "2")) as (_ & _ & _ & _ & _ & H).
    destruct (duration_normalization (lit "15")) as (_ & _ & _ & _ & _ & H15).
    destruct (duration_normalization (lit "+4_0")) as (_ & _ & _ & _ & _ & H40).
    split; [|split].
    + destruct (H (lit " ") (lit " ") 2) as (_ & _ & _ & _ & _ & G & _);
        [repeat constructor | repeat constructor | vm_compute; reflexivity |].
      exact G.
    + destruct (H15 (lit " ") [] 15) as (_ & _ & _ & G & _);
        [repeat constructor | constructor | vm_compute; reflexivity |].
      exact G.
    + destruct (H40 [] (lit " ") 40) as (_ & _ & _ & _ & _ & _ & G);
        [constructor | repeat constructor | vm_compute; reflexivity |].
      exact G.
Defined.

(** ** Persistence *)

Import Persistence.

(** C7, as the code has it.  [load_data] returns in every case, since
    whatever goes wrong inside its [try] is caught.  No file, a file that
    cannot be read or decoded, a document that is not an object and an
    object without the key [lotteries] all give the empty mapping.  An
    object with the key gives the value under it, whatever it is; for a
    snapshot whose [lotteries] is a mapping that is the mapping recorded. *)
Theorem load_outcomes :
  load_data Absent = PDict []
  /\ load_data Undecodable = PDict []
  /\ (forall data, (forall kv, data <> PDict kv) -> load_data (Decoded data) = PDict [])
  /\ (forall kv, dict_lookup kv (lit "lotteries") = None ->
                 load_data (Decoded (PDict kv)) = PDict [])
  /\ (forall kv v, dict_lookup kv (lit "lotteries") = Some v ->
                   load_data (Decoded (PDict kv)) = v)
  /\ (forall file, well_formed file ->
        exists kv m, file = Decoded (PDict kv) /\
                     dict_lookup kv (lit "lotteries") = Some (PDict m) /\
                     load_data file = PDict m).
Proof.
  split; [reflexivity|]. split; [reflexivity|]. split; [|split; [|split]].
  - intros data H. destruct data; try reflexivity. exfalso. exact (H kv eq_refl).
  - intros kv H. unfold load_data, get_lotteries. rewrite H. reflexivity.
  - intros kv v H. unfold load_data, get_lotteries. rewrite H. reflexivity.
  - intros file (kv & m & -> & H). exists kv, m.
    split; [reflexivity|]. split; [exact H|].
    unfold load_data, get_lotteries. rewrite H. reflexivity.
Qed.

Lemma load_outcomes_witness :
  load_data (Decoded (PList [])) = PDict []
  /\ load_data (Decoded (PDict [(lit "version", PInt 1)])) = PDict []
  /\ load_data (Decoded (PDict [(lit "lotteries", PDict [(lit "7", PDict [])])]))
     = PDict [(lit "7", PDict [])].
Proof.
  destruct load_outcomes as (_ & _ & H1 & H2 & H3 & _).
  split; [|split].
  - apply H1. discriminate.
  - apply H2. reflexivity.
  - apply H3. reflexivity.
Defined.

(** C7 as stated fails: a file that holds an object whose [lotteries] is
    the number 5 is no well-formed snapshot, and loading it binds
    [lotteries] to 5, not to the empty mapping. *)
Lemma load_keeps_non_mapping :
  ~ (forall file, ~ well_formed file -> load_data file = PDict []).
Proof.
  intros H.
  specialize (H (Decoded (PDict [(lit "lotteries", PInt 5)]))).
  assert (E : load_data (Decoded (PDict [(lit "lotteries", PInt 5)])) = PDict []).
  { apply H. intros (kv & m & Hf & Hl). injection Hf as <-. discriminate Hl. }
  discriminate E.
Qed.

(** ** What a save writes *)

Section SaveFacts.













Lemma save_data_lock w lotteries p w' e :
  save_data w lotteries p = Some (w', e) -> save_lock w = false /\ save_lock w' = false.
Proof.
  unfold save_data, acquire. destruct (save_lock w); [discriminate|].
  destruct (save_body _ lotteries p). intros [= <- _]. auto.
Qed.


End SaveFacts.




(** * More of the bot *)

(** ** What [parse_duration] rejects *)

Section DurationEdges.

Lemma strip_blank ws : spaces ws -> strip ws = [].
Proof.
  intros H. pose proof (strip_spaces ws [] [] H (List.Forall_nil _)) as E.
  simpl in E. rewrite app_nil_r in E. exact E.
Qed.

Lemma skip_space_alphabet (P : ascii -> Prop) s :
  (forall c, c_isspace c = true -> P c) ->
  Forall P (skip_space s) -> Forall P s.
Proof.
  intros HP. induction s as [|c s IH]; simpl; [auto|].
  destruct (c_isspace c) eqn:E; [|auto].
  intros H. constructor; [apply HP, E | apply IH, H].
Qed.

Lemma skip_space_nil s : skip_space s = [] -> Forall (fun c => c_isspace c = true) s.
Proof.
  induction s as [|c s IH]; simpl; [constructor|].
  destruct (c_isspace c) eqn:E; [|discriminate].
  intros H. constructor; [exact E | apply IH, H].
Qed.

Lemma alphabet_space c : c_isspace c = true -> int_alphabet c = true.
Proof. unfold int_alphabet. intros ->. reflexivity. Qed.

Lemma alphabet_digit c d : digit_val c = Some d -> int_alphabet c = true.
Proof.
  unfold int_alphabet. intros ->.
  rewrite bool_decide_eq_true_2 by eauto. rewrite orb_true_r. reflexivity.
Qed.

Lemma alphabet_underscore c : Ascii.eqb c "_" = true -> int_alphabet c = true.
Proof. unfold int_alphabet. intros ->. rewrite orb_true_r. reflexivity. Qed.

(** What [scan_digits] reads is digits and underscores. *)
Lemma scan_digits_alphabet s :
  forall acc n tail,
    scan_digits acc s = Some (n, tail) ->
    Forall (fun c => int_alphabet c = true) tail ->
    Forall (fun c => int_alphabet c = true) s.
Proof.
  enough (G : (forall acc n tail,
                  scan_digits acc s = Some (n, tail) ->
                  Forall (fun c => int_alphabet c = true) tail ->
                  Forall (fun c => int_alphabet c = true) s) /\
              (forall a acc n tail,
                  scan_digits acc (a :: s) = Some (n, tail) ->
                  Forall (fun c => int_alphabet c = true) tail ->
                  Forall (fun c => int_alphabet c = true) (a :: s)))
    by exact (proj1 G).
  induction s as [|x s [IH1 IH2]].
  - split; [intros acc n tail _ _; constructor|].
    intros a acc n tail. cbn [scan_digits].
    destruct (digit_val a) as [d|] eqn:Da.
    + intros _ _. constructor; [exact (alphabet_digit _ _ Da) | constructor].
    + destruct (Ascii.eqb a "_"); [discriminate|].
      intros [= <- <-] H. exact H.
  - split; [intros acc n tail; apply IH2|].
    intros a acc n tail. cbn [scan_digits].
    destruct (digit_val a) as [d|] eqn:Da.
    + intros H Ht. constructor; [exact (alphabet_digit _ _ Da)|].
      exact (IH2 x _ _ _ H Ht).
    + destruct (Ascii.eqb a "_") eqn:Ua.
      * destruct (digit_val x) as [d|] eqn:Dx; [|discriminate].
        intros H Ht. constructor; [exact (alphabet_underscore _ Ua)|].
        constructor; [exact (alphabet_digit _ _ Dx)|].
        exact (IH1 _ _ _ H Ht).
      * intros [= <- <-] H. exact H.
Qed.

Lemma digits_value_alphabet s n :
  digits_value s = Some n -> Forall (fun c => int_alphabet c = true) s.
Proof.
  destruct s as [|c rest]; simpl; [discriminate|].
  destruct (digit_val c) as [d|] eqn:Dc; [|discriminate].
  destruct (scan_digits d rest) as [[m tail]|] eqn:E; [|discriminate].
  destruct (skip_space tail) eqn:Et; [|discriminate].
  intros _. constructor; [exact (alphabet_digit _ _ Dc)|].
  apply (scan_digits_alphabet rest d m tail E).
  eapply Forall_impl; [apply skip_space_nil, Et|].
  intros a. apply alphabet_space.
Qed.

Lemma int_digits_alphabet s n :
  int_digits s = Some n -> Forall (fun c => int_alphabet c = true) s.
Proof. intros H. exact (digits_value_alphabet _ _ (int_digits_inv _ _ H)). Qed.

Lemma int_ascii_alphabet s n :
  int_ascii s = Some n -> Forall (fun c => int_alphabet c = true) s.
Proof.
  unfold int_ascii. intros H.
  apply skip_space_alphabet; [apply alphabet_space|].
  destruct (skip_space s) as [|a b]; [constructor|].
  assert (Body : forall (neg : bool) (body : str),
             (fun n : Z => if neg then - n else n) <$> int_digits body = Some n ->
             Forall (fun c => int_alphabet c = true) body).
  { intros neg body Hb. destruct (int_digits body) as [m|] eqn:E; [|discriminate].
    exact (int_digits_alphabet _ _ E). }
  simpl in H. unfold int_alphabet at 1.
  destruct (Ascii.eqb a "+") eqn:Ep.
  { constructor; [rewrite Ep, orb_true_r; reflexivity | exact (Body false b H)]. }
  destruct (Ascii.eqb a "-") eqn:Em.
  { constructor; [rewrite Em, orb_true_r; reflexivity | exact (Body true b H)]. }
  exact (Body false (a :: b) H).
Qed.

Lemma py_int_alphabet s n :
  py_int s = Some n -> Forall (fun c => duration_char c = true) s.
Proof.
  intros H. apply int_ascii_alphabet in H.
  apply Forall_map in H. exact H.
Qed.

(** The branch [parse_duration] takes, and what [int] is given there. *)
Lemma parse_duration_inv s n :
  parse_duration s = Some n ->
  exists k m,
    (k = 1 \/ k = 60 \/ k = 3600) /\ n = m * k /\
    (py_int (drop_last (lower (strip s))) = Some m \/
     (k = 1 /\ py_int (lower (strip s)) = Some m)).
Proof.
  unfold parse_duration.
  destruct (endswith (lower (strip s)) (lit "s")).
  { intros H. exists 1, n. split; [auto|]. split; [lia | auto]. }
  destruct (endswith (lower (strip s)) (lit "m")).
  { destruct (py_int (drop_last (lower (strip s)))) as [m|]; [|discriminate].
    intros [= <-]. exists 60, m. auto. }
  destruct (endswith (lower (strip s)) (lit "h")).
  { destruct (py_int (drop_last (lower (strip s)))) as [m|]; [|discriminate].
    intros [= <-]. exists 3600, m. auto. }
  intros H. exists 1, n. split; [auto|]. split; [lia | auto].
Qed.

Lemma Forall_removelast {A} (P : A -> Prop) (l : list A) :
  Forall P l -> Forall P (removelast l).
Proof.
  induction 1 as [|x l Hx Hl IH]; simpl; [constructor|].
  destruct l; [constructor | constructor; assumption].
Qed.

End DurationEdges.

(** X1.  A blank duration and a unit without a number are refused. *)
Theorem blank_duration_rejected (ws ws' : str) :
  spaces ws -> spaces ws' ->
  parse_duration ws = None
  /\ parse_duration (ws ++ lit "s" ++ ws') = None
  /\ parse_duration (ws ++ lit "m" ++ ws') = None
  /\ parse_duration (ws ++ lit "h" ++ ws') = None.
Proof.
  intros H H'. unfold parse_duration.
  rewrite (strip_blank ws H), !(strip_spaces _ _ _ H H').
  repeat split; reflexivity.
Qed.

Lemma blank_duration_rejected_witness :
  parse_duration (lit "   ") = None /\ parse_duration (lit " " ++ lit "m" ++ lit " ") = None.
Proof.
  destruct (blank_duration_rejected (lit "   ") [])
    as (H1 & _); [repeat constructor | constructor |].
  destruct (blank_duration_rejected (lit " ") (lit " "))
    as (_ & _ & H2 & _); [repeat constructor | repeat constructor |].
  split; [exact H1 | exact H2].
Defined.

(** X2.  A duration that parses holds nothing but digits, signs,
    underscores and blanks in front of its last character: one unit at the
    end at most, no fraction. *)
Theorem duration_one_unit (s : str) (n : Z) :
  parse_duration s = Some n ->
  Forall (fun c => duration_char c = true) (drop_last (lower (strip s))).
Proof.
  intros H. destruct (parse_duration_inv s n H) as (k & m & _ & _ & [E|[_ E]]).
  - exact (py_int_alphabet _ _ E).
  - apply Forall_removelast. exact (py_int_alphabet _ _ E).
Qed.

Lemma duration_one_unit_witness :
  Forall (fun c => duration_char c = true) (drop_last (lower (strip (lit " 1_0 H ")))).
Proof. exact (duration_one_unit (lit " 1_0 H ") 36000 eq_refl). Defined.

Section DurationSign.

Lemma digit_val_range c d : digit_val c = Some d -> 0 <= d <= 9.
Proof.
  unfold digit_val, in_range.
  destruct ((48 <=? ord c)%N && (ord c <=? 57)%N) eqn:E; [|discriminate].
  apply andb_true_iff in E as [E1 E2].
  apply N.leb_le in E1. apply N.leb_le in E2.
  intros [= <-]. lia.
Qed.

Lemma scan_digits_nonneg s :
  forall acc n tail, 0 <= acc -> scan_digits acc s = Some (n, tail) -> 0 <= n.
Proof.
  enough (G : (forall acc n tail,
                  0 <= acc -> scan_digits acc s = Some (n, tail) -> 0 <= n) /\
              (forall a acc n tail,
                  0 <= acc -> scan_digits acc (a :: s) = Some (n, tail) -> 0 <= n))
    by exact (proj1 G).
  induction s as [|x s [IH1 IH2]].
  - split; [intros acc n tail Ha [= <- _]; exact Ha|].
    intros a acc n tail Ha. cbn [scan_digits].
    destruct (digit_val a) as [d|] eqn:Da.
    + intros [= <- _]. pose proof (digit_val_range _ _ Da). lia.
    + destruct (Ascii.eqb a "_"); [discriminate|]. intros [= <- _]. exact Ha.
  - split; [intros acc n tail; apply IH2|].
    intros a acc n tail Ha. cbn [scan_digits].
    destruct (digit_val a) as [d|] eqn:Da.
    + apply IH2. pose proof (digit_val_range _ _ Da). lia.
    + destruct (Ascii.eqb a "_").
      * destruct (digit_val x) as [d|] eqn:Dx; [|discriminate].
        apply IH1. pose proof (digit_val_range _ _ Dx). lia.
      * intros [= <- _]. exact Ha.
Qed.

Lemma digits_value_nonneg s n : digits_value s = Some n -> 0 <= n.
Proof.
  destruct s as [|c rest]; simpl; [discriminate|].
  destruct (digit_val c) as [d|] eqn:Dc; [|discriminate].
  destruct (scan_digits d rest) as [[m tail]|] eqn:E; [|discriminate].
  destruct (skip_space tail); [|discriminate].
  intros [= <-]. apply (scan_digits_nonneg rest d m tail); [|exact E].
  pose proof (digit_val_range _ _ Dc). lia.
Qed.

Lemma int_digits_nonneg s n : int_digits s = Some n -> 0 <= n.
Proof. intros H. exact (digits_value_nonneg _ _ (int_digits_inv _ _ H)). Qed.

Lemma In_skip_space x s : In x (skip_space s) -> In x s.
Proof.
  induction s as [|c s IH]; simpl; [auto|].
  destruct (c_isspace c); [auto|]. simpl. auto.
Qed.

(** [int] returns a negative number only when it read a minus sign. *)
Lemma int_ascii_negative s n : int_ascii s = Some n -> n < 0 -> In "-"%char s.
Proof.
  unfold int_ascii. intros H Hn. apply In_skip_space.
  destruct (skip_space s) as [|a b]; simpl in H; [discriminate|].
  assert (Pos : forall body, (fun n : Z => n) <$> int_digits body = Some n -> False).
  { intros body Hb. destruct (int_digits body) as [m|] eqn:E; [|discriminate].
    injection Hb as <-. pose proof (int_digits_nonneg _ _ E). lia. }
  destruct (Ascii.eqb a "+"); [destruct (Pos b H)|].
  destruct (Ascii.eqb a "-") eqn:Em; [|destruct (Pos (a :: b) H)].
  apply Ascii.eqb_eq in Em. subst a. left. reflexivity.
Qed.

Lemma int_char_minus c : int_char c = "-"%char -> c = "-"%char.
Proof. all_chars c; discriminate. Qed.

Lemma lower_char_minus c : lower_char c = "-"%char -> c = "-"%char.
Proof. all_chars c; discriminate. Qed.

Lemma py_int_negative s n : py_int s = Some n -> n < 0 -> In "-"%char s.
Proof.
  intros H Hn. apply (int_ascii_negative _ _ H) in Hn.
  apply in_map_iff in Hn as (c & Hc & Hin).
  apply int_char_minus in Hc. subst c. exact Hin.
Qed.

Lemma In_lstrip x s : In x (lstrip s) -> In x s.
Proof.
  induction s as [|c s IH]; simpl; [auto|].
  destruct (isspace c); [auto|]. simpl. auto.
Qed.

Lemma In_strip x s : In x (strip s) -> In x s.
Proof.
  unfold strip, rstrip. intros H. apply In_lstrip.
  apply in_rev in H. apply In_lstrip in H. apply in_rev. exact H.
Qed.

Lemma In_removelast {A} (x : A) l : In x (removelast l) -> In x l.
Proof.
  induction l as [|a l IH]; simpl; [auto|].
  destruct l; [intros []|]. intros [->|H]; [left; reflexivity | right; exact (IH H)].
Qed.

Lemma In_normal_form_minus s : In "-"%char (lower (strip s)) -> In "-"%char s.
Proof.
  intros H. apply in_map_iff in H as (c & Hc & Hin).
  apply lower_char_minus in Hc. subst c. exact (In_strip _ _ Hin).
Qed.

End DurationSign.

(** X3.  Only a minus sign in the input makes a duration negative. *)
Theorem negative_duration_has_minus (s : str) (n : Z) :
  parse_duration s = Some n -> n < 0 -> In "-"%char s.
Proof.
  intros H Hn. apply In_normal_form_minus.
  destruct (parse_duration_inv s n H) as (k & m & Hk & -> & [E|[_ E]]).
  - apply In_removelast. apply (py_int_negative _ m E).
    destruct Hk as [->|[->| ->]]; lia.
  - apply (py_int_negative _ m E). destruct Hk as [->|[->| ->]]; lia.
Qed.

Lemma negative_duration_has_minus_witness : In "-"%char (lit " -5M ").
Proof.
  apply (negative_duration_has_minus (lit " -5M ") (-300)); [reflexivity | lia].
Defined.

(** ** Ticket codes *)

Section CodeFormat.

Lemma upper_hex_digit c : is_hex_digit c = true -> is_code_char (upper_char c) = true.
Proof. all_chars c; discriminate. Qed.

Lemma lower_upper_hex_digit c : is_hex_digit c = true -> lower_char (upper_char c) = c.
Proof. all_chars c; discriminate. Qed.

Lemma lower_upper_hex s :
  Forall (fun c => is_hex_digit c = true) s -> lower (upper s) = s.
Proof.
  induction 1 as [|c s Hc _ IH]; simpl; [reflexivity|].
  rewrite (lower_upper_hex_digit c Hc). f_equal. exact IH.
Qed.

End CodeFormat.

(** X4.  For a UUID written with at least eight hexadecimal digits the code
    has eight characters, each a digit or a letter from A to F; two such
    UUIDs get the same code exactly when their first eight digits agree. *)
Theorem ticket_code_format (u v : str) :
  (8 <= length u)%nat ->
  Forall (fun c => is_hex_digit c = true) u ->
  Forall (fun c => is_hex_digit c = true) v ->
  length (gen_ticket_code u) = 8%nat
  /\ Forall (fun c => is_code_char c = true) (gen_ticket_code u)
  /\ (gen_ticket_code u = gen_ticket_code v <-> prefix 8 u = prefix 8 v).
Proof.
  intros Hlen Hu Hv. unfold gen_ticket_code, upper, prefix.
  split; [rewrite length_map, length_firstn; lia|]. split.
  - apply Forall_map. eapply Forall_impl; [apply Forall_take, Hu|].
    intros c. apply upper_hex_digit.
  - split; [|intros ->; reflexivity].
    intros E.
    rewrite <- (lower_upper_hex (firstn 8 u)), <- (lower_upper_hex (firstn 8 v)).
    + unfold upper. rewrite E. reflexivity.
    + apply Forall_take, Hv.
    + apply Forall_take, Hu.
Qed.

Lemma ticket_code_format_witness :
  gen_ticket_code (clashing_uuids 0) = gen_ticket_code (clashing_uuids 1).
Proof.
  destruct (ticket_code_format (clashing_uuids 0) (clashing_uuids 1)) as (_ & _ & H).
  - simpl. lia.
  - repeat constructor.
  - repeat constructor.
  - apply H. reflexivity.
Defined.

(** ** Which lottery a purchase finds *)

Section Target.

Lemma buy_tickets_elsewhere (s : Store) ctx m :
  find_lottery_message s (take 50 (buy_history ctx)) = Some m ->
  forall k, k <> m -> fst (buy_tickets s ctx) !! k = s !! k.
Proof.
  intros Hf k Hk.
  destruct (buy_tickets_cases s ctx) as [(f & l & B)|(r & -> & _)]; [|reflexivity].
  rewrite (buy_tickets_sells _ _ _ _ B). simpl.
  destruct B as (_ & _ & Hf' & _). rewrite Hf in Hf'. injection Hf' as <-.
  apply lookup_insert_ne. congruence.
Qed.

End Target.

(** X5.  A purchase goes to the newest message of the channel that is an
    active lottery: when the messages newer than [m] among the last 50 are
    no active lotteries and [m] is one, [m] is found, and whatever the
    purchase does, every other lottery, an older active one included, stays
    as it was. *)
Theorem purchase_targets_newest (s : Store) (ctx : BuyCtx) (newer older : list Z)
    (m : Z) (lottery : Lottery) :
  take 50 (buy_history ctx) = newer ++ m :: older ->
  Forall (fun k => s !! k = None) newer ->
  s !! m = Some lottery ->
  find_lottery_message s (take 50 (buy_history ctx)) = Some m
  /\ (forall k, k <> m -> fst (buy_tickets s ctx) !! k = s !! k).
Proof.
  intros Hh Hn Hm.
  assert (Hf : find_lottery_message s (take 50 (buy_history ctx)) = Some m).
  { rewrite Hh, (find_lottery_message_skip _ _ _ Hn). simpl. rewrite Hm. reflexivity. }
  split; [exact Hf | exact (buy_tickets_elsewhere s ctx m Hf)].
Qed.

Lemma purchase_targets_newest_witness :
  let s : Store := {[ 7 := sample_lottery None [] 4600; 3 := sample_lottery None [] 4000 ]} in
  fst (buy_tickets s (buy_cmd 11 1 [9; 7; 3] sample_uuids)) !! 3 = s !! 3.
Proof.
  intros s.
  destruct (purchase_targets_newest s (buy_cmd 11 1 [9; 7; 3] sample_uuids)
              [9] [3] 7 (sample_lottery None [] 4600)) as [_ H].
  - reflexivity.
  - repeat constructor.
  - reflexivity.
  - apply H. lia.
Defined.

(** X6.  Only the last 50 messages of the channel are looked at: when none
    of them is an active lottery the purchase is refused and nothing
    changes, even if an active lottery was posted further back. *)
Theorem purchase_window (s : Store) (ctx : BuyCtx) :
  0 < buy_count ctx ->
  buy_channel ctx = buy_display_chan ctx ->
  Forall (fun k => s !! k = None) (take 50 (buy_history ctx)) ->
  buy_tickets s ctx = (s, [Reply NoActiveLotteryInChannel]).
Proof.
  intros Hc Hch Hn. unfold buy_tickets.
  destruct (Z.leb_spec (buy_count ctx) 0) as [?|_]; [lia|].
  rewrite Hch, Z.eqb_refl. simpl negb. cbv iota.
  pose proof (find_lottery_message_skip s _ [] Hn) as E.
  rewrite app_nil_r in E. rewrite E. reflexivity.
Qed.

(** An active lottery, fifty other messages after it. *)
Lemma purchase_window_witness :
  let s : Store := {[ 7 := sample_lottery None [] 4600 ]} in
  s !! 7 = Some (sample_lottery None [] 4600)
  /\ buy_tickets s (buy_cmd 11 1 (replicate 50 9 ++ [7]) sample_uuids)
     = (s, [Reply NoActiveLotteryInChannel]).
Proof.
  intros s. split; [reflexivity|].
  apply purchase_window; [reflexivity | reflexivity |].
  vm_compute. repeat constructor.
Defined.

(** ** What a run keeps *)

Section RunInvariants.

Lemma extends_refl l : extends l l.
Proof. exists []. destruct l; simpl. rewrite app_nil_r. reflexivity. Qed.

Lemma extends_trans l1 l2 l3 : extends l1 l2 -> extends l2 l3 -> extends l1 l3.
Proof.
  intros [a ->] [b ->]. exists (a ++ b). unfold set_tickets. simpl.
  rewrite app_assoc. reflexivity.
Qed.

Lemma extends_step (s : Store) op m l l1 :
  s !! m = Some l -> posts m op = false ->
  fst (step s op) !! m = Some l1 -> extends l l1.
Proof.
  intros Hm Hp. destruct op as [ctx|ctx|k r|p k r]; simpl in *.
  - destruct (lottery_create_cases s ctx) as [(e & -> & _)|(l' & secs & _ & ->)]; simpl.
    + rewrite Hm. intros [= <-]. apply extends_refl.
    + rewrite lookup_insert_ne.
      * rewrite Hm. intros [= <-]. apply extends_refl.
      * intros E. rewrite E, Z.eqb_refl in Hp. discriminate.
  - destruct (buy_tickets_cases s ctx) as [(f & lf & B)|(r & -> & _)]; simpl.
    + rewrite (buy_tickets_sells _ _ _ _ B). simpl.
      destruct B as (_ & _ & _ & Hl & _).
      destruct (decide (f = m)) as [->|Hne].
      * rewrite lookup_insert_eq. intros [= <-].
        assert (lf = l) by congruence. subst. eexists. reflexivity.
      * rewrite lookup_insert_ne by exact Hne.
        rewrite Hm. intros [= <-]. apply extends_refl.
    + rewrite Hm. intros [= <-]. apply extends_refl.
  - rewrite finalize_lottery_store. intros H.
    apply lookup_delete_Some in H as [_ H]. rewrite Hm in H. injection H as <-.
    apply extends_refl.
  - destruct (admin_end_store s p k r) as [->| ->]; intros H.
    + rewrite Hm in H. injection H as <-. apply extends_refl.
    + apply lookup_delete_Some in H as [_ H]. rewrite Hm in H. injection H as <-.
      apply extends_refl.
Qed.

Lemma extends_run ops : forall (s : Store) m l l',
  s !! m = Some l ->
  forallb (fun op => negb (posts m op)) ops = true ->
  fst (run s ops) !! m = Some l' ->
  extends l l'.
Proof.
  induction ops as [|op ops IH]; intros s m l l' Hm Hops.
  - simpl. rewrite Hm. intros [= <-]. apply extends_refl.
  - simpl in Hops. apply andb_true_iff in Hops as [Hop Hops].
    assert (Hp : posts m op = false) by (destruct (posts m op); [discriminate | reflexivity]).
    rewrite run_cons. intros Hl'.
    destruct (fst (step s op) !! m) as [l1|] eqn:E1.
    + apply (extends_trans l l1 l').
      * exact (extends_step s op m l l1 Hm Hp E1).
      * exact (IH _ m l1 l' E1 Hops Hl').
    + rewrite (absent_run ops _ m E1 Hops) in Hl'. discriminate.
Qed.

Lemma announcements_app a b : announcements (a ++ b) = (announcements a + announcements b)%nat.
Proof. unfold announcements. rewrite List.filter_app, length_app. reflexivity. Qed.

Lemma lottery_create_quiet s ctx : announcements (snd (lottery_create s ctx)) = 0%nat.
Proof.
  unfold lottery_create.
  destruct (negb _); [reflexivity|].
  destruct (cr_rest ctx) as [[|? ?]|]; try reflexivity.
  destruct (cr_parts ctx) as [[|i [|d [|pr more]]]|]; try reflexivity.
  destruct (max_tickets_arg more); [|reflexivity].
  destruct (parse_duration d) as [secs|]; [|reflexivity].
  destruct (datetime_add (cr_now ctx) secs) as [ends|]; [|reflexivity].
  destruct (cr_timestamp ctx ends); reflexivity.
Qed.

Lemma buy_tickets_quiet s ctx : announcements (snd (buy_tickets s ctx)) = 0%nat.
Proof.
  destruct (buy_tickets_cases s ctx) as [(f & lf & B)|(r & -> & _)]; [|reflexivity].
  rewrite (buy_tickets_sells _ _ _ _ B). simpl. destruct (buy_dm_ok ctx); reflexivity.
Qed.

Lemma finalize_lottery_count (s : Store) m r :
  (announcements (snd (finalize_lottery s m r)) + size (fst (finalize_lottery s m r))
   <= size s)%nat.
Proof.
  rewrite finalize_lottery_store, map_size_delete. unfold finalize_lottery.
  destruct (s !! m) as [l|] eqn:E; simpl; [|lia].
  assert (size s <> 0%nat).
  { apply map_size_ne_0_lookup. eauto. }
  destruct (tickets l) as [|t ts]; simpl; [unfold announcements; simpl; lia|].
  destruct ((t :: ts) !! r); unfold announcements; simpl; lia.
Qed.

Lemma step_count (s : Store) op :
  (announcements (snd (step s op)) + size (fst (step s op))
   <= size s + (if is_create op then 1 else 0))%nat.
Proof.
  destruct op as [ctx|ctx|k r|p k r]; simpl.
  - rewrite lottery_create_quiet.
    destruct (lottery_create_cases s ctx) as [(e & -> & _)|(l' & secs & _ & ->)]; simpl;
      [lia|].
    rewrite map_size_insert. destruct (s !! cr_msg_id ctx); simpl; lia.
  - rewrite buy_tickets_quiet.
    destruct (buy_tickets_cases s ctx) as [(f & lf & B)|(r & -> & _)]; simpl; [|lia].
    rewrite (buy_tickets_sells _ _ _ _ B). simpl.
    destruct B as (_ & _ & _ & Hl & _).
    rewrite map_size_insert, Hl. simpl. lia.
  - pose proof (finalize_lottery_count s k r). lia.
  - unfold admin_end. destruct p; simpl; [|unfold announcements; simpl; lia].
    destruct (s !! k) eqn:E; [|unfold announcements; simpl; lia].
    pose proof (finalize_lottery_count s k r) as H.
    destruct (finalize_lottery s k r) as [s' out]. simpl in *.
    rewrite announcements_app. unfold announcements at 2. simpl. lia.
Qed.

Lemma run_out_cons s op ops :
  snd (run s (op :: ops)) = snd (step s op) ++ snd (run (fst (step s op)) ops).
Proof.
  simpl. destruct (step s op) as [s1 out1]. simpl.
  destruct (run s1 ops). reflexivity.
Qed.

End RunInvariants.

(** X7.  While a lottery is in the store and no other lottery is posted
    under its message id, commands only ever add tickets at the end of its
    ticket list: the tickets it had stay first and in order, and its item,
    seller, price, cap and times never change. *)
Theorem tickets_append_only (ops : list Op) :
  forall (s : Store) (m : Z) (l l' : Lottery),
    s !! m = Some l ->
    forallb (fun op => negb (posts m op)) ops = true ->
    fst (run s ops) !! m = Some l' ->
    extends l l'.
Proof.
  induction ops as [|op ops IH]; intros s m l l' Hm Hops.
  - simpl. rewrite Hm. intros [= <-]. apply extends_refl.
  - simpl in Hops. apply andb_true_iff in Hops as [Hop Hops].
    assert (Hp : posts m op = false) by (destruct (posts m op); [discriminate | reflexivity]).
    rewrite run_cons. intros Hl'.
    destruct (fst (step s op) !! m) as [l1|] eqn:E1.
    + apply (extends_trans l l1 l').
      * exact (extends_step s op m l l1 Hm Hp E1).
      * exact (IH _ m l1 l' E1 Hops Hl').
    + rewrite (absent_run ops _ m E1 Hops) in Hl'. discriminate.
Qed.

Lemma tickets_append_only_witness :
  extends (sample_lottery (Some 2) [] 4600)
          (sample_lottery (Some 2) [mkTicket (lit "3F2A9C04") 11] 4600).
Proof.
  apply (tickets_append_only
           [OpBuy (buy_cmd 11 1 [7] sample_uuids); OpTimerFire 3 0;
            OpBuy (buy_cmd 12 5 [7] sample_uuids)]
           {[ 7 := sample_lottery (Some 2) [] 4600 ]} 7); reflexivity.
Defined.

(** X8.  Every announcement of an outcome takes a lottery out of the store
    and nothing else announces one: over any run, the outcomes announced
    and the lotteries left are together no more than the lotteries there
    were at the start and the [create] commands of the run. *)
Theorem one_outcome_per_lottery (ops : list Op) :
  forall s : Store,
    (announcements (snd (run s ops)) + size (fst (run s ops))
     <= size s + creations ops)%nat.
Proof.
  induction ops as [|op ops IH]; intros s.
  - simpl. unfold announcements, creations. simpl. lia.
  - rewrite run_cons, run_out_cons, announcements_app.
    pose proof (step_count s op) as H1. pose proof (IH (fst (step s op))) as H2.
    unfold creations in *. simpl List.filter.
    destruct (is_create op); simpl length; lia.
Qed.

(** ** Finalization *)

(** X9.  Finalizing one lottery leaves every other lottery as it was, and
    whatever the draw, a winner is only ever announced for a ticket of the
    lottery being finalized: the winner is its buyer, the code its code,
    the item and the seller those of the lottery. *)
Theorem winner_holds_ticket (s : Store) (m : Z) (r : nat) :
  (forall k, k <> m -> fst (finalize_lottery s m r) !! k = s !! k)
  /\ (forall w c i sl,
         In (Announce (Winner w c i sl)) (snd (finalize_lottery s m r)) ->
         exists l t, s !! m = Some l /\ In t (tickets l) /\
                     buyer_id t = w /\ code t = c /\ item l = i /\ seller_id l = sl).
Proof.
  split.
  - intros k Hk. rewrite finalize_lottery_store. apply lookup_delete_ne. congruence.
  - intros w c i sl. unfold finalize_lottery.
    destruct (s !! m) as [l|] eqn:Hl; [|intros []].
    destruct (tickets l) as [|t0 ts] eqn:Ht.
    { simpl. intros [H|[H|[]]]; discriminate H. }
    destruct ((t0 :: ts) !! r) as [t|] eqn:Hr.
    + simpl. intros [H|[H|[]]]; [|discriminate H].
      injection H as <- <- <- <-. exists l, t. rewrite Ht.
      split; [reflexivity|]. split; [|auto].
      apply list_elem_of_In. eapply list_elem_of_lookup_2. exact Hr.
    + simpl. intros [H|[]]. discriminate H.
Qed.

Lemma winner_holds_ticket_witness :
  exists l t,
    ({[ 7 := sample_lottery None [mkTicket (lit "3F2A9C04") 11;
                                  mkTicket (lit "B7E1D05A") 12] 4600 ]} : Store) !! 7
    = Some l /\ In t (tickets l) /\ buyer_id t = 12.
Proof.
  destruct (winner_holds_ticket
              {[ 7 := sample_lottery None [mkTicket (lit "3F2A9C04") 11;
                                           mkTicket (lit "B7E1D05A") 12] 4600 ]} 7 1)
    as [_ H].
  destruct (H 12 (lit "B7E1D05A") (lit "Sword") 1) as (l & t & H1 & H2 & H3 & _).
  - left. reflexivity.
  - exists l, t. auto.
Defined.

(** ** The display message *)

(** X10.  The display prints the cap as Unlimited exactly when there is no
    cap or the cap is 0; yet a lottery with cap 0 sells nothing: every
    purchase that finds it is refused as over capacity. *)
Theorem zero_cap_shown_unlimited (timestamp : Z -> Z) (lottery : Lottery) :
  (embed_max (post_lottery_display timestamp lottery) = None <->
   max_tickets lottery = None \/ max_tickets lottery = Some 0)
  /\ (max_tickets lottery = Some 0 ->
      forall (s : Store) ctx found,
        s !! found = Some lottery ->
        find_lottery_message s (take 50 (buy_history ctx)) = Some found ->
        0 < buy_count ctx ->
        buy_channel ctx = buy_display_chan ctx ->
        buy_tickets s ctx = (s, [Reply (NotEnoughTickets (- sold lottery))])).
Proof.
  split.
  - simpl. unfold shown_max. destruct (max_tickets lottery) as [M|]; [|tauto].
    destruct (Z.eqb_spec M 0) as [->|Hne].
    + tauto.
    + split; [discriminate|]. intros [H|H]; [discriminate | congruence].
  - intros HM s ctx found Hl Hf Hc Hch. unfold buy_tickets.
    destruct (Z.leb_spec (buy_count ctx) 0) as [?|_]; [lia|].
    rewrite Hch, Z.eqb_refl. simpl negb. cbv iota.
    rewrite Hf, Hl, (capacity_error_Some lottery (buy_count ctx) 0 HM).
    + reflexivity.
    + unfold sold. lia.
Qed.

Lemma zero_cap_shown_unlimited_witness :
  embed_max (post_lottery_display (fun t => t) (sample_lottery (Some 0) [] 4600)) = None
  /\ buy_tickets {[ 7 := sample_lottery (Some 0) [] 4600 ]}
                 (buy_cmd 11 1 [7] sample_uuids)
     = ({[ 7 := sample_lottery (Some 0) [] 4600 ]}, [Reply (NotEnoughTickets 0)]).
Proof.
  destruct (zero_cap_shown_unlimited (fun t => t) (sample_lottery (Some 0) [] 4600))
    as [H1 H2].
  split.
  - apply H1. right. reflexivity.
  - apply (H2 eq_refl {[ 7 := sample_lottery (Some 0) [] 4600 ]}
              (buy_cmd 11 1 [7] sample_uuids) 7); reflexivity.
Defined.

(** X11.  [update_display_message] reads the store after it has waited
    for the channel and the message, when other commands may have run.  As
    long as none of them posts a lottery under the same id, the edit that
    follows a purchase shows, in the footer, at least the old number of
    tickets plus the count bought, and more by what was sold in the
    meantime, with the rest of the embed as before; it shows just that sum
    when nothing ran in between.  When the lottery has been finalized in
    the meantime, or the display message is gone, no edit is made. *)
Theorem display_follows_sales (timestamp : Z -> Z) (s : Store) (ctx : BuyCtx)
    (found : Z) (lottery : Lottery) (ops : list Op) :
  buyable s ctx found lottery ->
  forallb (fun op => negb (posts found op)) ops = true ->
  let bought := fst (buy_tickets s ctx) in
  let later := fst (run bought ops) in
  ((later !! found = None /\
    update_display_message timestamp later true found = None)
   \/ (exists more,
         later !! found
         = Some (set_tickets lottery (tickets lottery ++ new_tickets ctx ++ more)) /\
         update_display_message timestamp later true found
         = Some (lottery_embed timestamp lottery None
                   (Some (length (tickets lottery) + Z.to_nat (buy_count ctx)
                          + length more)%nat))))
  /\ update_display_message timestamp bought true found
     = Some (lottery_embed timestamp lottery None
               (Some (length (tickets lottery) + Z.to_nat (buy_count ctx))%nat))
  /\ (forall lotteries m, update_display_message timestamp lotteries false m = None)
  /\ (forall r fetched,
         update_display_message timestamp (fst (finalize_lottery later found r))
                                fetched found
         = None).
Proof.
  intros B Hops bought later.
  assert (Hn : length (new_tickets ctx) = Z.to_nat (buy_count ctx)).
  { unfold new_tickets, drawn_codes. rewrite !length_map, length_seq. reflexivity. }
  assert (Hb : bought !! found
               = Some (set_tickets lottery (tickets lottery ++ new_tickets ctx))).
  { unfold bought. rewrite (buy_tickets_sells _ _ _ _ B). simpl.
    apply lookup_insert_eq. }
  split; [|split; [|split]].
  - destruct (later !! found) as [l2|] eqn:E.
    + right. destruct (extends_run ops bought found _ l2 Hb Hops E) as [more ->].
      exists more. cbn [tickets set_tickets]. rewrite <- app_assoc.
      split; [reflexivity|].
      unfold update_display_message. cbn [negb]. rewrite E.
      unfold lottery_embed. cbn. rewrite !length_app, Hn.
      repeat f_equal; lia.
    + left. split; [reflexivity|].
      unfold update_display_message. cbn [negb]. rewrite E. reflexivity.
  - unfold update_display_message. cbn [negb]. rewrite Hb.
    unfold lottery_embed. cbn. rewrite length_app, Hn. reflexivity.
  - reflexivity.
  - intros r fetched. unfold update_display_message.
    rewrite finalize_lottery_store, lookup_delete_eq. destruct fetched; reflexivity.
Qed.

Lemma display_follows_sales_witness :
  embed_footer_sold <$>
    update_display_message (fun t => t)
      (fst (buy_tickets {[ 7 := sample_lottery None [] 4600 ]}
                        (buy_cmd 11 2 [7] sample_uuids))) true 7
  = Some (Some 2%nat)
  /\ embed_footer_sold <$>
       update_display_message (fun t => t)
         (fst (run (fst (buy_tickets {[ 7 := sample_lottery None [] 4600 ]}
                                     (buy_cmd 11 2 [7] sample_uuids)))
                   [OpBuy (buy_cmd 12 3 [7] sample_uuids)])) true 7
     = Some (Some 5%nat).
Proof.
  assert (B : buyable {[ 7 := sample_lottery None [] 4600 ]}
                      (buy_cmd 11 2 [7] sample_uuids) 7 (sample_lottery None [] 4600)).
  { repeat split; vm_compute; reflexivity. }
  split.
  - destruct (display_follows_sales (fun t => t) _ _ _ _ [] B eq_refl) as (_ & H & _).
    rewrite H. reflexivity.
  - destruct (display_follows_sales (fun t => t) _ _ _ _
                [OpBuy (buy_cmd 12 3 [7] sample_uuids)] B eq_refl) as ([[E _]|(more & E & H)] & _).
    + vm_compute in E. discriminate E.
    + vm_compute. reflexivity.
Defined.

(** ** [my_tickets] *)

Section MyTickets.

Lemma user_codes_nil u l :
  user_codes u l = [] <-> forall t, In t (tickets l) -> buyer_id t <> u.
Proof.
  unfold user_codes. induction (tickets l) as [|t ts IH]; simpl.
  - split; [intros _ t [] | reflexivity].
  - destruct (Z.eqb_spec (buyer_id t) u) as [E|E]; simpl.
    + split; [discriminate|]. intros H. destruct (H t (or_introl eq_refl) E).
    + rewrite IH. split.
      * intros H t' [<-|Ht']; [exact E | exact (H t' Ht')].
      * intros H t' Ht'. apply H. right. exact Ht'.
Qed.

Lemma found_entry u (m : Z) (l : Lottery) i cs :
  match user_codes u l with [] => None | c :: cs' => Some (item l, c :: cs') end
  = Some (i, cs)
  <-> i = item l /\ cs = user_codes u l /\ cs <> [].
Proof.
  destruct (user_codes u l) as [|c cs'].
  - split; [discriminate|]. intros (_ & -> & H). destruct (H eq_refl).
  - split.
    + intros [= <- <-]. auto.
    + intros (-> & -> & _). reflexivity.
Qed.

Lemma elem_of_found_tickets (s : Store) u i cs :
  (i, cs) ∈ found_tickets s u <->
  exists m l, s !! m = Some l /\ i = item l /\ cs = user_codes u l /\ cs <> [].
Proof.
  unfold found_tickets. rewrite list_elem_of_omap. split.
  - intros ([m l] & Hin & Hf). apply elem_of_map_to_list in Hin.
    exists m, l. split; [exact Hin|]. apply (found_entry u m l). exact Hf.
  - intros (m & l & Hl & H). exists (m, l).
    split; [apply elem_of_map_to_list, Hl|]. apply (found_entry u m l). exact H.
Qed.

Lemma user_codes_app u l more :
  user_codes u (set_tickets l (tickets l ++ more))
  = user_codes u l ++ map code (List.filter (fun t => buyer_id t =? u) more).
Proof. unfold user_codes. simpl. rewrite List.filter_app, map_app. reflexivity. Qed.

Lemma new_tickets_own ctx :
  map code (List.filter (fun t => buyer_id t =? buy_author ctx) (new_tickets ctx))
  = drawn_codes ctx.
Proof.
  unfold new_tickets. induction (drawn_codes ctx) as [|c cs IH]; simpl; [reflexivity|].
  rewrite Z.eqb_refl. simpl. f_equal. exact IH.
Qed.

End MyTickets.

(** X12.  [!mytickets] lists, for each active lottery in which the user
    holds tickets, the item with exactly the codes of the user's tickets in
    the order they were bought, and nothing else; it answers that the user
    has no tickets exactly when no ticket of an active lottery is theirs. *)
Theorem my_tickets_lists_holdings (s : Store) (u : Z) :
  (forall i cs,
      (i, cs) ∈ found_tickets s u <->
      exists m l, s !! m = Some l /\ i = item l /\ cs = user_codes u l /\ cs <> [])
  /\ (forall dm_ok,
         my_tickets s u dm_ok = NoTicketsHeld <->
         forall m l t, s !! m = Some l -> In t (tickets l) -> buyer_id t <> u).
Proof.
  split; [intros i cs; apply elem_of_found_tickets|].
  intros dm_ok. unfold my_tickets. split.
  - destruct (found_tickets s u) as [|e es] eqn:E;
      [|destruct dm_ok; discriminate].
    intros _ m l t Hl Ht.
    destruct (user_codes u l) as [|c cs'] eqn:Hu.
    + exact (proj1 (user_codes_nil u l) Hu t Ht).
    + assert (Hin : (item l, c :: cs') ∈ found_tickets s u).
      { apply elem_of_found_tickets. exists m, l. rewrite Hu.
        repeat split; try discriminate; auto. }
      rewrite E in Hin. inversion Hin.
  - intros H. destruct (found_tickets s u) as [|[i cs] es] eqn:E; [reflexivity|].
    assert (Hin : (i, cs) ∈ found_tickets s u) by (rewrite E; left).
    apply elem_of_found_tickets in Hin as (m & l & Hl & _ & -> & Hne).
    destruct Hne. apply user_codes_nil. intros t. exact (H m l t Hl).
Qed.

(** X13.  After a purchase that went through, the buyer's [!mytickets]
    lists the item of the lottery bought with the codes the buyer held
    there before followed by the codes just drawn. *)
Theorem purchase_shows_in_my_tickets (s : Store) (ctx : BuyCtx) (found : Z)
    (lottery : Lottery) :
  buyable s ctx found lottery ->
  (item lottery, user_codes (buy_author ctx) lottery ++ drawn_codes ctx)
  ∈ found_tickets (fst (buy_tickets s ctx)) (buy_author ctx)
  /\ forall dm_ok, my_tickets (fst (buy_tickets s ctx)) (buy_author ctx) dm_ok
                   <> NoTicketsHeld.
Proof.
  intros B.
  assert (Hin : (item lottery, user_codes (buy_author ctx) lottery ++ drawn_codes ctx)
                ∈ found_tickets (fst (buy_tickets s ctx)) (buy_author ctx)).
  { rewrite (buy_tickets_sells _ _ _ _ B). simpl.
    apply elem_of_found_tickets.
    exists found, (set_tickets lottery (tickets lottery ++ new_tickets ctx)).
    split; [apply lookup_insert_eq|]. split; [reflexivity|].
    rewrite user_codes_app, new_tickets_own. split; [reflexivity|].
    destruct B as (Hc & _).
    intros E. apply (f_equal (@length str)) in E.
    rewrite length_app in E. unfold drawn_codes in E.
    rewrite length_map, length_seq in E. simpl in E. lia. }
  split; [exact Hin|].
  intros dm_ok. unfold my_tickets.
  destruct (found_tickets (fst (buy_tickets s ctx)) (buy_author ctx)) as [|e es];
    [inversion Hin | destruct dm_ok; discriminate].
Qed.

Lemma purchase_shows_in_my_tickets_witness :
  (lit "Sword", [lit "3F2A9C04"; lit "B7E1D05A"])
  ∈ found_tickets (fst (buy_tickets {[ 7 := sample_lottery None [] 4600 ]}
                                    (buy_cmd 11 2 [7] sample_uuids))) 11.
Proof.
  assert (B : buyable {[ 7 := sample_lottery None [] 4600 ]}
                      (buy_cmd 11 2 [7] sample_uuids) 7 (sample_lottery None [] 4600)).
  { repeat split; vm_compute; reflexivity. }
  exact (proj1 (purchase_shows_in_my_tickets _ _ _ _ B)).
Defined.

Lemma my_tickets_lists_holdings_witness :
  my_tickets {[ 7 := sample_lottery None [mkTicket (lit "3F2A9C04") 11] 4600 ]} 12 true
  = NoTicketsHeld.
Proof.
  apply (proj2 (my_tickets_lists_holdings _ 12)).
  intros m l t Hl Ht. apply lookup_singleton_Some in Hl as [_ <-].
  destruct Ht as [<-|[]]. simpl. lia.
Defined.

(** ** [lottery_status] *)

(** X14.  [!lotterystatus] answers that there are no active lotteries
    exactly when the store is empty; otherwise it prints one line for each
    lottery in the store, as many lines as there are lotteries, each with
    the lottery's item, seller, number of tickets sold and message id. *)
Theorem status_lists_active (timestamp : Z -> Z) (s : Store) :
  (lottery_status timestamp s = None <-> s = ∅)
  /\ (forall lines,
         lottery_status timestamp s = Some lines ->
         length lines = size s /\
         forall line, line ∈ lines <->
                      exists m l, s !! m = Some l /\ line = status_line timestamp (m, l)).
Proof.
  unfold lottery_status. split.
  - rewrite <- map_to_list_empty_iff.
    destruct (map_to_list s); split; try discriminate; reflexivity.
  - intros lines H.
    assert (E : lines = map (status_line timestamp) (map_to_list s)).
    { destruct (map_to_list s); [discriminate | congruence]. }
    subst lines. split; [rewrite length_map; apply length_map_to_list|].
    intros line. change (map (status_line timestamp) (map_to_list s))
      with (status_line timestamp <$> map_to_list s).
    rewrite list_elem_of_fmap. split.
    + intros ([m l] & -> & Hin). apply elem_of_map_to_list in Hin. eauto.
    + intros (m & l & Hl & ->). exists (m, l).
      split; [reflexivity | apply elem_of_map_to_list, Hl].
Qed.

Lemma status_lists_active_witness :
  lottery_status (fun t => t)
    {[ 7 := sample_lottery None [mkTicket (lit "3F2A9C04") 11] 4600 ]}
  = Some [mkStatus (lit "Sword") 1 1 4600 7]
  /\ length [mkStatus (lit "Sword") 1 1 4600 7] = 1%nat.
Proof.
  assert (E : lottery_status (fun t => t)
                {[ 7 := sample_lottery None [mkTicket (lit "3F2A9C04") 11] 4600 ]}
              = Some [mkStatus (lit "Sword") 1 1 4600 7]) by (vm_compute; reflexivity).
  split; [exact E|].
  destruct (status_lists_active (fun t => t)
              {[ 7 := sample_lottery None [mkTicket (lit "3F2A9C04") 11] 4600 ]}) as [_ H].
  destruct (H _ E) as [Hlen _]. rewrite Hlen. apply map_size_singleton.
Defined.

(** ** Startup *)

Section Startup.

Lemma round_half_even_bounds n d :
  0 < d -> n / d <= round_half_even n d /\ 2 * (d * round_half_even n d) <= 2 * n + d.
Proof.
  intros Hd. unfold round_half_even.
  pose proof (Z.div_mod n d ltac:(lia)) as E.
  pose proof (Z.mod_pos_bound n d Hd) as B.
  pose proof (Z.mul_add_distr_l d (n / d) 1) as D.
  destruct (Z.compare_spec (2 * (n mod d)) d); [destruct (Z.even (n / d))| |]; lia.
Qed.

Lemma binade_second us : 0 < us < 2 ^ 34 * 1000000 -> binade us 1000000 <= 33.
Proof.
  intros [Hp Hlt]. unfold binade.
  change (Z.log2 1000000) with 19.
  assert (Hl : Z.log2 us < 54).
  { apply Z.log2_lt_pow2; [exact Hp|].
    eapply Z.lt_trans; [exact Hlt|]. reflexivity. }
  destruct (Z.eq_dec (Z.log2 us - 19) 34) as [->|Hne].
  - change (0 <=? 34) with true. cbv iota.
    destruct (Z.leb_spec (1000000 * 2 ^ 34) us) as [Hle|_]; [|lia].
    exfalso. rewrite Z.mul_comm in Hle. lia.
  - destruct (if 0 <=? Z.log2 us - 19 then _ else _); lia.
Qed.

(** With less than [2 ^ 34] seconds left, some 544 years, the timer is set
    for the whole seconds of the time left. *)
Lemma int_total_seconds us :
  0 < us < 2 ^ 34 * 1000000 -> int_of_float (total_seconds us) = us / 1000000.
Proof.
  intros H. pose proof (binade_second us H) as He. destruct H as [Hp Hlt].
  unfold total_seconds, true_divide.
  destruct (Z.eqb_spec us 0) as [->|_]; [lia|].
  rewrite (Z.abs_eq us) by lia. rewrite (Z.sgn_pos us) by lia.
  set (k := 52 - binade us 1000000) in *.
  assert (Hk : 19 <= k) by (unfold k; lia).
  destruct (Z.leb_spec 0 k); [|lia].
  unfold int_of_float. cbn [exponent mantissa].
  destruct (Z.leb_spec 0 (- k)); [lia|].
  rewrite Z.opp_involutive, Z.mul_1_l.
  assert (HP : 2 ^ 19 <= 2 ^ k) by (apply Z.pow_le_mono_r; lia).
  change (2 ^ 19) with 524288 in HP.
  set (P := 2 ^ k) in *.
  destruct (round_half_even_bounds (us * P) 1000000 ltac:(lia)) as [Lo Hi].
  set (m := round_half_even (us * P) 1000000) in *.
  pose proof (Z.div_mod us 1000000 ltac:(lia)) as E.
  pose proof (Z.mod_pos_bound us 1000000 ltac:(lia)) as B.
  set (n := us / 1000000) in *. set (r := us mod 1000000) in *.
  assert (Hn : 0 <= n) by lia.
  assert (HrP : 0 <= r * P /\ r * P <= 999999 * P) by nia.
  assert (EP : us * P = 1000000 * (n * P) + r * P) by (rewrite E; ring).
  assert (Lo' : n * P <= m).
  { eapply Z.le_trans; [|exact Lo]. apply Z.div_le_lower_bound; lia. }
  assert (HnP : 0 <= n * P) by nia.
  rewrite Z.quot_div_nonneg by lia.
  symmetry. apply Z.div_unique with (r := m - n * P); lia.
Qed.

Lemma binade_below a b :
  0 < a -> 0 < b ->
  let e := binade a b in
  if 0 <=? e then b * 2 ^ e <= a else b <= a * 2 ^ (- e).
Proof.
  intros Ha Hb.
  destruct (Z.log2_spec a Ha) as [La Ua]. destruct (Z.log2_spec b Hb) as [Lb Ub].
  pose proof (Z.log2_nonneg a) as Na. pose proof (Z.log2_nonneg b) as Nb.
  unfold binade. set (la := Z.log2 a) in *. set (lb := Z.log2 b) in *.
  destruct (if 0 <=? la - lb then b * 2 ^ (la - lb) <=? a else b <=? a * 2 ^ (- (la - lb)))
    eqn:C; cbv zeta.
  - destruct (Z.leb_spec 0 (la - lb)); apply Z.leb_le, C.
  - destruct (Z.leb_spec 0 (la - lb - 1)).
    + assert (E : 2 ^ la = 2 ^ (lb + 1) * 2 ^ (la - lb - 1))
        by (rewrite <- Z.pow_add_r by lia; f_equal; lia).
      assert (0 < 2 ^ (la - lb - 1)) by (apply Z.pow_pos_nonneg; lia).
      nia.
    + assert (E : 2 ^ (lb + 1) = 2 ^ la * 2 ^ (- (la - lb - 1)))
        by (rewrite <- Z.pow_add_r by lia; f_equal; lia).
      assert (0 < 2 ^ (- (la - lb - 1))) by (apply Z.pow_pos_nonneg; lia).
      nia.
Qed.

Lemma mantissa_pos a b : 0 < a -> 0 < b -> 0 < mantissa (true_divide a b).
Proof.
  intros Ha Hb. pose proof (binade_below a b Ha Hb) as B. cbv zeta in B.
  unfold true_divide.
  destruct (Z.eqb_spec a 0) as [->|_]; [lia|].
  rewrite (Z.abs_eq a) by lia. rewrite (Z.sgn_pos a) by lia.
  set (e := binade a b) in *. cbn [mantissa]. rewrite Z.mul_1_l.
  destruct (Z.leb_spec 0 (52 - e)) as [Hk|Hk].
  - destruct (round_half_even_bounds (a * 2 ^ (52 - e)) b Hb) as [Lo _].
    eapply Z.lt_le_trans; [|exact Lo].
    apply Z.div_str_pos. split; [exact Hb|].
    destruct (Z.leb_spec 0 e) as [He|He].
    + assert (0 < 2 ^ e) by (apply Z.pow_pos_nonneg; lia).
      assert (0 < 2 ^ (52 - e)) by (apply Z.pow_pos_nonneg; lia).
      nia.
    + assert (E : 2 ^ (52 - e) = 2 ^ 52 * 2 ^ (- e))
        by (rewrite <- Z.pow_add_r by lia; f_equal; lia).
      assert (0 < 2 ^ (- e)) by (apply Z.pow_pos_nonneg; lia).
      change (2 ^ 52) with 4503599627370496 in E. nia.
  - assert (P : 0 < 2 ^ (- (52 - e))) by (apply Z.pow_pos_nonneg; lia).
    destruct (round_half_even_bounds a (b * 2 ^ (- (52 - e))) ltac:(nia)) as [Lo _].
    eapply Z.lt_le_trans; [|exact Lo].
    apply Z.div_str_pos. split; [nia|].
    destruct (Z.leb_spec 0 e) as [He|He]; [|lia].
    assert (E : 2 ^ e = 2 ^ 52 * 2 ^ (- (52 - e)))
      by (rewrite <- Z.pow_add_r by lia; f_equal; lia).
    change (2 ^ 52) with 4503599627370496 in E. nia.
Qed.

(** The float is at or below zero when the difference is. *)
Lemma float_le_zero_total_seconds us :
  float_le_zero (total_seconds us) = true <-> us <= 0.
Proof.
  unfold float_le_zero, total_seconds. rewrite Z.leb_le.
  destruct (Z.lt_trichotomy us 0) as [Hn|[->|Hp]].
  - split; [lia|]. intros _.
    pose proof (mantissa_pos (- us) 1000000 ltac:(lia) ltac:(lia)) as M.
    unfold true_divide in *.
    destruct (Z.eqb_spec us 0); [lia|]. destruct (Z.eqb_spec (- us) 0); [lia|].
    rewrite Z.abs_neq, Z.sgn_neg by lia.
    rewrite Z.abs_eq, Z.sgn_pos in M by lia. cbn [mantissa] in *. lia.
  - split; [lia|]. intros _. reflexivity.
  - pose proof (mantissa_pos us 1000000 Hp ltac:(lia)). lia.
Qed.

Lemma startup_task_cases now m l :
  (time_left l now <= 0 /\ startup_task now (m, l) = FinalizeNow m)
  \/ (0 < time_left l now /\
      startup_task now (m, l)
      = SleepThenFinalize m (int_of_float (total_seconds (time_left l now)))).
Proof.
  unfold startup_task. cbn [fst snd].
  pose proof (float_le_zero_total_seconds (time_left l now)) as H.
  destruct (float_le_zero (total_seconds (time_left l now))).
  - left. split; [apply H; reflexivity | reflexivity].
  - right. split; [|reflexivity].
    destruct (Z.lt_ge_cases 0 (time_left l now)) as [?|Hle]; [assumption|].
    apply Z.ge_le_iff in Hle. apply Z.ge_le in Hle.
    destruct H as [_ H]. specialize (H Hle). discriminate.
Qed.

Lemma elem_of_on_ready (s : Store) utcnow t :
  t ∈ on_ready s utcnow <->
  exists i m l, map_to_list s !! i = Some (m, l) /\ t = startup_task (utcnow i) (m, l).
Proof.
  unfold on_ready. rewrite elem_of_lookup_imap. split.
  - intros (i & [m l] & -> & Hi). eauto.
  - intros (i & m & l & Hi & ->). exists i, (m, l). auto.
Qed.

(** A lottery comes up in one round of the loop only. *)
Lemma round_unique (s : Store) i j m l l' :
  map_to_list s !! i = Some (m, l) -> map_to_list s !! j = Some (m, l') -> i = j.
Proof.
  intros Hi Hj.
  apply (NoDup_lookup ((map_to_list s).*1) i j m).
  - apply NoDup_fst_map_to_list.
  - rewrite list_lookup_fmap, Hi. reflexivity.
  - rewrite list_lookup_fmap, Hj. reflexivity.
Qed.

Lemma round_of (s : Store) m l :
  s !! m = Some l <-> exists i, map_to_list s !! i = Some (m, l).
Proof.
  rewrite <- elem_of_map_to_list. apply list_elem_of_lookup.
Qed.

Lemma finalize_now_iff (s : Store) utcnow m :
  FinalizeNow m ∈ on_ready s utcnow <->
  exists i l, map_to_list s !! i = Some (m, l) /\ time_left l (utcnow i) <= 0.
Proof.
  rewrite elem_of_on_ready. split.
  - intros (i & k & l & Hi & E).
    destruct (startup_task_cases (utcnow i) k l) as [[Hle E']|[_ E']];
      rewrite E' in E; [|discriminate].
    injection E as <-. eauto.
  - intros (i & l & Hi & Hle). exists i, m, l. split; [exact Hi|].
    destruct (startup_task_cases (utcnow i) m l) as [[_ E']|[Hlt _]]; [auto | lia].
Qed.

Lemma elem_of_immediate tasks m : m ∈ immediate tasks <-> FinalizeNow m ∈ tasks.
Proof.
  unfold immediate. rewrite list_elem_of_omap. split.
  - intros (t & Hin & E). destruct t; [|discriminate]. injection E as ->. exact Hin.
  - intros H. exists (FinalizeNow m). auto.
Qed.

Lemma run_timers (draw : Z -> nat) ids :
  forall (s : Store) m l,
    fst (run s (map (fun k => OpTimerFire k (draw k)) ids)) !! m = Some l <->
    s !! m = Some l /\ m ∉ ids.
Proof.
  induction ids as [|k ids IH]; intros s m l.
  - simpl. split; [intros H; split; [exact H | apply not_elem_of_nil] | tauto].
  - cbn [map]. rewrite run_cons. cbn [step]. rewrite IH, finalize_lottery_store.
    rewrite lookup_delete_Some, not_elem_of_cons. split.
    + intros [[Hk Hl] Hn]. split; [exact Hl|]. split; [congruence | exact Hn].
    + intros [Hl [Hk Hn]]. split; [|exact Hn]. split; [congruence | exact Hl].
Qed.

(** What is left of the store when the finalizations of startup have run. *)
Lemma startup_leaves (s : Store) utcnow (draw : Z -> nat) m l :
  fst (run s (map (fun k => OpTimerFire k (draw k)) (immediate (on_ready s utcnow)))) !! m
  = Some l
  <-> exists i, map_to_list s !! i = Some (m, l) /\ 0 < time_left l (utcnow i).
Proof.
  rewrite run_timers, elem_of_immediate, finalize_now_iff. split.
  - intros [Hl Hn]. apply round_of in Hl as [i Hi]. exists i. split; [exact Hi|].
    destruct (Z.lt_ge_cases 0 (time_left l (utcnow i))) as [?|Hge]; [assumption|].
    destruct Hn. exists i, l. split; [exact Hi | lia].
  - intros (i & Hi & Hlt). split; [apply round_of; eauto|].
    intros (j & l' & Hj & Hle).
    pose proof (round_unique _ _ _ _ _ _ Hi Hj) as <-.
    rewrite Hi in Hj. injection Hj as <-. lia.
Qed.

End Startup.

(** X15.  Startup creates one task for each lottery in memory and none
    besides, each from the clock reading of its round of the loop: a
    finalization at once for a lottery whose end time is that reading or
    before it, and otherwise a timer for [int] of the float that
    [total_seconds] gives for the time left.  With less than [2 ^ 34]
    seconds left that is the number of whole seconds left, nought when
    less than a second is left; so the timer ends at the end time or up to
    a second before it. *)
Theorem startup_schedules_every_lottery (s : Store) (utcnow : nat -> Z * Z) :
  (forall t, t ∈ on_ready s utcnow <->
             exists i m l, map_to_list s !! i = Some (m, l) /\
                           t = startup_task (utcnow i) (m, l))
  /\ NoDup (map task_id (on_ready s utcnow))
  /\ length (on_ready s utcnow) = size s
  /\ (forall m, FinalizeNow m ∈ on_ready s utcnow <->
                exists i l, map_to_list s !! i = Some (m, l) /\
                            time_left l (utcnow i) <= 0)
  /\ (forall m seconds,
         SleepThenFinalize m seconds ∈ on_ready s utcnow <->
         exists i l, map_to_list s !! i = Some (m, l) /\
                     0 < time_left l (utcnow i) /\
                     seconds = int_of_float (total_seconds (time_left l (utcnow i))))
  /\ (forall us, 0 < us < 2 ^ 34 * 1000000 ->
                 int_of_float (total_seconds us) = us / 1000000)
  /\ (forall us, 0 < us < 2 ^ 34 * 1000000 ->
                 int_of_float (total_seconds us) * 1000000 <= us
                 < (int_of_float (total_seconds us) + 1) * 1000000)
  /\ (forall us, 0 < us < 1000000 -> int_of_float (total_seconds us) = 0).
Proof.
  split; [intros t; apply elem_of_on_ready|].
  split; [|split; [|split; [|split; [|split; [|split]]]]].
  - unfold on_ready.
    change (map task_id) with (fmap (M := list) task_id). rewrite fmap_imap.
    rewrite (imap_ext _ (const fst)).
    + rewrite imap_const. apply NoDup_fst_map_to_list.
    + intros i [m l] _. unfold compose.
      destruct (startup_task_cases (utcnow i) m l) as [[_ E]|[_ E]]; rewrite E; reflexivity.
  - unfold on_ready. rewrite length_imap. apply length_map_to_list.
  - intros m. apply finalize_now_iff.
  - intros m seconds. rewrite elem_of_on_ready. split.
    + intros (i & k & l & Hi & E).
      destruct (startup_task_cases (utcnow i) k l) as [[_ E']|[Hlt E']];
        rewrite E' in E; [discriminate|].
      injection E as <- ->. eauto.
    + intros (i & l & Hi & Hlt & ->). exists i, m, l. split; [exact Hi|].
      destruct (startup_task_cases (utcnow i) m l) as [[Hle _]|[_ E']]; [lia | auto].
  - apply int_total_seconds.
  - intros us H. rewrite int_total_seconds by exact H.
    pose proof (Z.div_mod us 1000000 ltac:(lia)) as E.
    pose proof (Z.mod_pos_bound us 1000000 ltac:(lia)) as B. lia.
  - intros us H. rewrite int_total_seconds by lia.
    apply Z.div_small. lia.
Qed.

Lemma startup_schedules_every_lottery_witness :
  on_ready {[ 7 := sample_lottery None [] 4600 ]} (fun _ => (4599, 250000))
  = [SleepThenFinalize 7 0]
  /\ on_ready {[ 7 := sample_lottery None [] 4600 ]} (fun _ => (4600, 0))
     = [FinalizeNow 7]
  /\ int_of_float (total_seconds 750000) = 0.
Proof.
  split; [vm_compute; reflexivity|]. split; [vm_compute; reflexivity|].
  destruct (startup_schedules_every_lottery ∅ (fun _ => (0, 0)))
    as (_ & _ & _ & _ & _ & _ & _ & H).
  apply H. lia.
Defined.

(** Past [2 ^ 34] seconds the float can round up to the next whole number:
    with 17179869184.999999 seconds left the timer is set for
    17179869185. *)
Example timer_rounded_up :
  int_of_float (total_seconds 17179869184999999) = 17179869185.
Proof. vm_compute. reflexivity. Qed.

(** X16.  When the finalizations that startup asks for at once have run,
    each with whatever draw, the store holds exactly the lotteries whose
    end time was still ahead of the clock in their round of the loop,
    unchanged.  For a clock that stands still these are the lotteries
    whose end time is after it. *)
Theorem startup_settles_expired (s : Store) (utcnow : nat -> Z * Z) (draw : Z -> nat)
    (m : Z) (l : Lottery) :
  (fst (run s (map (fun k => OpTimerFire k (draw k)) (immediate (on_ready s utcnow)))) !! m
   = Some l
   <-> exists i, map_to_list s !! i = Some (m, l) /\ 0 < time_left l (utcnow i))
  /\ (forall now now_us,
         (forall i, utcnow i = (now, now_us)) ->
         (fst (run s (map (fun k => OpTimerFire k (draw k))
                          (immediate (on_ready s utcnow)))) !! m
          = Some l
          <-> s !! m = Some l /\
              now * 1000000 + now_us < end_time l * 1000000 + end_time_us l))
  /\ (forall now,
         (forall i, utcnow i = (now, end_time_us l)) ->
         (fst (run s (map (fun k => OpTimerFire k (draw k))
                          (immediate (on_ready s utcnow)))) !! m
          = Some l
          <-> s !! m = Some l /\ now < end_time l)).
Proof.
  assert (Still : forall now now_us,
             (forall i, utcnow i = (now, now_us)) ->
             (fst (run s (map (fun k => OpTimerFire k (draw k))
                              (immediate (on_ready s utcnow)))) !! m
              = Some l
              <-> s !! m = Some l /\
                  now * 1000000 + now_us < end_time l * 1000000 + end_time_us l)).
  { intros now now_us Hc. rewrite startup_leaves, round_of. split.
    - intros (i & Hi & Hlt). rewrite Hc in Hlt. unfold time_left in Hlt. simpl in Hlt.
      split; [eauto | lia].
    - intros [[i Hi] Hlt]. exists i. split; [exact Hi|].
      rewrite Hc. unfold time_left. simpl. lia. }
  split; [apply startup_leaves|]. split; [exact Still|].
  intros now Hc. rewrite (Still now (end_time_us l) Hc).
  split; intros [Hl Hlt]; (split; [exact Hl | lia]).
Qed.

Lemma startup_settles_expired_witness :
  fst (run {[ 7 := sample_lottery None [] 4600 ]}
           (map (fun k => OpTimerFire k 0%nat)
                (immediate (on_ready {[ 7 := sample_lottery None [] 4600 ]}
                                     (fun _ => (4599, 0)))))) !! 7
  = Some (sample_lottery None [] 4600).
Proof.
  destruct (startup_settles_expired {[ 7 := sample_lottery None [] 4600 ]}
              (fun _ => (4599, 0)) (fun _ => 0%nat) 7 (sample_lottery None [] 4600))
    as (_ & _ & H).
  apply (H 4599); [reflexivity|].
  split; [apply lookup_singleton_eq | simpl; lia].
Defined.

(** ** [lottery_create] *)

(** X17.  [lottery_create] ends in one of three ways.  It sends one
    message, or raises [OverflowError] or [ValueError], and then stores
    nothing, saves nothing and starts no timer.  Or it stores under the id
    of the display message a lottery without tickets whose seller is the
    author, whose end time is the clock reading of line 300 plus the
    seconds of the timer it starts, a date the calendar has and the
    platform can turn into a timestamp, and whose creation time is the
    clock reading of line 312; it then saves, starts that timer and
    confirms. *)
Theorem creation_stores_what_it_schedules (s : Store) (ctx : CreateCtx) :
  (exists e, lottery_create s ctx = (s, [e]) /\
             ((exists r, e = Reply r /\ r <> LotteryCreated) \/
              e = Raised OverflowError \/ e = Raised ValueError))
  \/ (exists l seconds,
        lottery_create s ctx =
        (<[cr_msg_id ctx := l]> s,
         [Saved (<[cr_msg_id ctx := l]> s);
          TimerStarted (cr_msg_id ctx) seconds; Reply LotteryCreated]) /\
        tickets l = [] /\ seller_id l = cr_author ctx /\
        created_at l = cr_created ctx /\ created_at_us l = cr_created_us ctx /\
        end_time l = cr_now ctx + seconds /\ end_time_us l = cr_now_us ctx /\
        lottery_id l = cr_msg_id ctx /\ image_url l = cr_attachment ctx /\
        MIN_DATETIME <= end_time l <= MAX_DATETIME /\
        is_Some (cr_timestamp ctx (end_time l))).
Proof.
  unfold lottery_create.
  destruct (negb _); [left; eexists; split; [reflexivity | left; eexists; split; [reflexivity | discriminate]]|].
  destruct (cr_rest ctx) as [[|? ?]|];
    try (left; eexists; split; [reflexivity | left; eexists; split; [reflexivity | discriminate]]).
  destruct (cr_parts ctx) as [[|i [|d [|pr more]]]|];
    try (left; eexists; split; [reflexivity | left; eexists; split; [reflexivity | discriminate]]).
  destruct (max_tickets_arg more) as [cap|];
    [|left; eexists; split; [reflexivity | left; eexists; split; [reflexivity | discriminate]]].
  destruct (parse_duration d) as [seconds|];
    [|left; eexists; split; [reflexivity | left; eexists; split; [reflexivity | discriminate]]].
  unfold datetime_add.
  destruct (Z.leb_spec MIN_DATETIME (cr_now ctx + seconds)) as [Hlo|];
    [|left; eexists; split; [reflexivity | right; left; reflexivity]].
  destruct (Z.leb_spec (cr_now ctx + seconds) MAX_DATETIME) as [Hhi|];
    [|left; eexists; split; [reflexivity | right; left; reflexivity]].
  cbn [andb].
  destruct (cr_timestamp ctx (cr_now ctx + seconds)) as [ts|] eqn:Hts;
    [|left; eexists; split; [reflexivity | right; right; reflexivity]].
  right. eexists _, seconds. split; [reflexivity|]. simpl.
  rewrite Hts. repeat split; try assumption. eauto.
Qed.

(** X18.  A duration so long that the end date leaves the calendar is no
    validation error: [lottery_create] ends in an [OverflowError], before
    any channel is made and with nothing stored. *)
Theorem overlong_duration_raises (s : Store) (ctx : CreateCtx)
    (item_name d price : str) (more : list str) (cap : option Z) (seconds : Z) :
  well_formed_create ctx item_name d price more ->
  max_tickets_arg more = Some cap ->
  parse_duration d = Some seconds ->
  MAX_DATETIME < cr_now ctx + seconds \/ cr_now ctx + seconds < MIN_DATETIME ->
  lottery_create s ctx = (s, [Raised OverflowError]).
Proof.
  intros W Hcap Hparse Hout.
  rewrite (lottery_create_well_formed _ _ _ _ _ _ W), Hcap, Hparse.
  unfold datetime_add.
  destruct (Z.leb_spec MIN_DATETIME (cr_now ctx + seconds)); [|reflexivity].
  destruct (Z.leb_spec (cr_now ctx + seconds) MAX_DATETIME); [lia | reflexivity].
Qed.

Lemma overlong_duration_raises_witness :
  lottery_create ∅ (create_cmd "Sword" "400000000h" "50" None 1000 7)
  = (∅, [Raised OverflowError]).
Proof.
  apply (overlong_duration_raises ∅ _ (lit "Sword") (lit "400000000h") (lit "50")
           [] None 1440000000000).
  - split; [reflexivity|]. split; [|reflexivity]. eexists _, _. reflexivity.
  - reflexivity.
  - reflexivity.
  - left. unfold MAX_DATETIME. simpl. lia.
Defined.

(** ** Saving *)

(** X19.  What a command saves is the store as the command leaves it, and
    a command that changes the store saves it (the calls to Discord taken
    to succeed and the draw in range). *)
Theorem changes_are_saved (s : Store) (op : Op) :
  draw_in_range s op ->
  (forall x, In (Saved x) (snd (step s op)) -> x = fst (step s op))
  /\ (fst (step s op) <> s -> In (Saved (fst (step s op))) (snd (step s op))).
Proof.
  intros Hr.
  assert (Fin : forall m r,
             (forall l, s !! m = Some l -> tickets l <> [] ->
                        (r < length (tickets l))%nat) ->
             (forall x, In (Saved x) (snd (finalize_lottery s m r)) ->
                        x = fst (finalize_lottery s m r))
             /\ (fst (finalize_lottery s m r) <> s ->
                 In (Saved (fst (finalize_lottery s m r))) (snd (finalize_lottery s m r)))).
  { intros m r Hd. unfold finalize_lottery.
    destruct (s !! m) as [l|] eqn:Hl; simpl.
    2:{ split; [intros x []|]. intros H. destruct H. apply delete_id, Hl. }
    destruct (tickets l) as [|t ts] eqn:Ht; simpl.
    { split; [|auto]. intros x [H|[H|[]]]; [discriminate H | congruence]. }
    assert (Hlt : (r < length (t :: ts))%nat) by (rewrite <- Ht; apply (Hd l eq_refl); congruence).
    destruct (lookup_lt_is_Some_2 _ _ Hlt) as [w ->]. simpl.
    split; [|auto]. intros x [H|[H|[]]]; [discriminate H | congruence]. }
  destruct op as [ctx|ctx|m r|p m r]; simpl in *.
  - destruct (lottery_create_cases s ctx) as [(e & E & He)|(l & secs & _ & E)].
    + assert (Q : forall x, e <> Saved x).
      { intros x ->. revert E. unfold lottery_create.
        destruct (negb _); [discriminate|].
        destruct (cr_rest ctx) as [[|? ?]|]; try discriminate.
        destruct (cr_parts ctx) as [[|i [|d [|pr more]]]|]; try discriminate.
        destruct (max_tickets_arg more); [|discriminate].
        destruct (parse_duration d) as [secs|]; [|discriminate].
        destruct (datetime_add (cr_now ctx) secs) as [ends|]; [|discriminate].
        destruct (cr_timestamp ctx ends); discriminate. }
      rewrite E. simpl. split.
      * intros x [H|[]]. destruct (Q x H).
      * intros H. destruct H. reflexivity.
    + rewrite E. simpl. split; [|auto].
      intros x [H|[H|[H|[]]]]; [congruence | discriminate H | discriminate H].
  - destruct (buy_tickets_cases s ctx) as [(f & lf & B)|(r & -> & _)]; simpl.
    + rewrite (buy_tickets_sells _ _ _ _ B). simpl. split; [|auto].
      intros x [H|[H|H]]; [congruence | discriminate H|].
      destruct (buy_dm_ok ctx); simpl in H;
        destruct H as [H|[H|[]]]; discriminate H.
    + split; [intros x [H|[]]; discriminate H|]. intros H. destruct H. reflexivity.
  - apply Fin, Hr.
  - destruct (Fin m r Hr) as [F1 F2]. clear Fin Hr.
    unfold admin_end. destruct p; simpl.
    2:{ split; [intros x [H|[]]; discriminate H|]. intros H. destruct H. reflexivity. }
    destruct (s !! m) eqn:Hl; simpl.
    2:{ split; [intros x [H|[]]; discriminate H|]. intros H. destruct H. reflexivity. }
    destruct (finalize_lottery s m r) as [s' out]. simpl in *. split.
    + intros x Hx. apply in_app_or in Hx as [Hx|[Hx|[]]]; [exact (F1 x Hx) | discriminate Hx].
    + intros H. apply in_or_app. left. exact (F2 H).
Qed.

Lemma changes_are_saved_witness :
  In (Saved ∅)
     (snd (step {[ 7 := sample_lottery None [mkTicket (lit "3F2A9C04") 11] 4600 ]}
                (OpTimerFire 7 0))).
Proof.
  destruct (changes_are_saved
              {[ 7 := sample_lottery None [mkTicket (lit "3F2A9C04") 11] 4600 ]}
              (OpTimerFire 7 0)) as [_ H].
  - intros l Hl _. apply lookup_singleton_Some in Hl as [_ <-]. simpl. lia.
  - assert (E : fst (step {[ 7 := sample_lottery None [mkTicket (lit "3F2A9C04") 11] 4600 ]}
                          (OpTimerFire 7 0)) = ∅).
    { simpl. rewrite finalize_lottery_store. apply delete_singleton_eq. }
    rewrite E in H. apply H. intros Q.
    apply (f_equal (fun m : Store => m !! 7)) in Q.
    rewrite lookup_empty, lookup_singleton_eq in Q. discriminate Q.
Defined.

(** ** Channels *)

Section Channels.

Lemma find_channel_spec chs name :
  match find_channel chs name with
  | Some ch =>
      exists before after,
        chs = before ++ ch :: after /\ lower (chan_name ch) = lower name /\
        Forall (fun c => lower (chan_name c) <> lower name) before
  | None => Forall (fun c => lower (chan_name c) <> lower name) chs
  end.
Proof.
  induction chs as [|c chs IH]; simpl; [constructor|].
  destruct (decide (lower (chan_name c) = lower name)) as [E|E].
  - rewrite bool_decide_eq_true_2 by exact E.
    exists [], chs. split; [reflexivity|]. split; [exact E | constructor].
  - rewrite bool_decide_eq_false_2 by exact E.
    destruct (find_channel chs name) as [ch|].
    + destruct IH as (before & after & -> & Hn & Hb).
      exists (c :: before), after. split; [reflexivity|]. split; [exact Hn|].
      constructor; assumption.
    + constructor; assumption.
Qed.

Lemma find_channel_first before ch after name :
  lower (chan_name ch) = lower name ->
  Forall (fun c => lower (chan_name c) <> lower name) before ->
  find_channel (before ++ ch :: after) name = Some ch.
Proof.
  intros Hn. induction 1 as [|c before Hc _ IH]; simpl.
  - rewrite bool_decide_eq_true_2 by exact Hn. reflexivity.
  - rewrite bool_decide_eq_false_2 by exact Hc. exact IH.
Qed.

End Channels.

(** X20.  [find_or_create_channel] compares names without regard to letter
    case and looks at nothing else: it returns the first text channel with
    the name, in whatever category that channel is, and asks for a new
    channel exactly when no text channel has the name. *)
Theorem channel_found_by_name (guild : Guild) (name : str) (category_name : option str) :
  (forall ch,
      find_or_create_channel guild name category_name = ExistingChannel ch <->
      exists before after,
        guild_text_channels guild = before ++ ch :: after /\
        lower (chan_name ch) = lower name /\
        Forall (fun c => lower (chan_name c) <> lower name) before)
  /\ ((exists n cat, find_or_create_channel guild name category_name = NewChannel n cat) <->
      Forall (fun c => lower (chan_name c) <> lower name) (guild_text_channels guild))
  /\ find_or_create_channel guild (upper name) category_name
     = match find_or_create_channel guild name category_name with
       | ExistingChannel ch => ExistingChannel ch
       | NewChannel _ cat => NewChannel (upper name) cat
       end.
Proof.
  unfold find_or_create_channel.
  pose proof (find_channel_spec (guild_text_channels guild) name) as H.
  split; [|split].
  - intros ch. split.
    + destruct (find_channel (guild_text_channels guild) name) as [ch'|];
        [|discriminate]. intros [= <-]. exact H.
    + intros (before & after & E & Hn & Hb).
      rewrite E, (find_channel_first _ _ _ _ Hn Hb). reflexivity.
  - split.
    + intros (n & cat & E).
      destruct (find_channel (guild_text_channels guild) name); [discriminate | exact H].
    + intros F. destruct (find_channel (guild_text_channels guild) name) as [ch|].
      * destruct H as (before & after & E & Hn & _). rewrite E in F.
        apply Forall_app in F as [_ F]. inversion F; subst. contradiction.
      * eauto.
  - assert (E : forall chs, find_channel chs (upper name) = find_channel chs name
                            \/ lower (upper name) <> lower name).
    { intros chs. destruct (decide (lower (upper name) = lower name)) as [Q|Q]; [|auto].
      left. induction chs as [|c chs IH]; simpl; [reflexivity|].
      rewrite Q, IH. reflexivity. }
    assert (Q : lower (upper name) = lower name).
    { unfold lower, upper. rewrite map_map. apply map_ext. intros c. all_chars c. }
    destruct (E (guild_text_channels guild)) as [-> | N]; [|contradiction].
    destruct (find_channel (guild_text_channels guild) name); reflexivity.
Qed.

Lemma channel_found_by_name_witness :
  find_or_create_channel sample_guild (lit "lotteries") (Some (lit "Lotteries"))
  = ExistingChannel (mkChannel 5 (lit "Lotteries") None).
Proof.
  destruct (channel_found_by_name sample_guild (lit "lotteries") (Some (lit "Lotteries")))
    as [H _].
  apply H. exists [mkChannel 4 (lit "general") None], [mkChannel 6 (lit "lotteries") (Some 100)].
  split; [reflexivity|]. split; [reflexivity|].
  constructor; [discriminate | constructor].
Defined.

(** ** The value of a duration *)

Section DurationValue.

Lemma digit_val_digit_char d : (d < 10)%nat -> digit_val (digit_char d) = Some (Z.of_nat d).
Proof.
  intros H. do 10 (destruct d as [|d]; [reflexivity|]). lia.
Qed.

Lemma int_char_digit_char d : (d < 10)%nat -> int_char (digit_char d) = digit_char d.
Proof.
  intros H. do 10 (destruct d as [|d]; [reflexivity|]). lia.
Qed.

Lemma digit_char_not_space d : (d < 10)%nat -> c_isspace (digit_char d) = false.
Proof.
  intros H. exact (digit_not_space _ _ (digit_val_digit_char d H)).
Qed.

Lemma digit_char_not_sign d :
  (d < 10)%nat ->
  Ascii.eqb (digit_char d) "+" = false /\ Ascii.eqb (digit_char d) "-" = false.
Proof.
  intros H. do 10 (destruct d as [|d]; [split; reflexivity|]). lia.
Qed.

Lemma scan_digits_digits ds :
  Forall (fun d => (d < 10)%nat) ds ->
  forall acc,
    scan_digits acc (map digit_char ds)
    = Some (fold_left (fun a d => 10 * a + Z.of_nat d) ds acc, []).
Proof.
  induction 1 as [|d ds Hd _ IH]; intros acc; [reflexivity|].
  cbn [map scan_digits]. rewrite (digit_val_digit_char d Hd). apply IH.
Qed.

Lemma count_digits_digits ds :
  Forall (fun d => (d < 10)%nat) ds -> count_digits (map digit_char ds) = length ds.
Proof.
  induction 1 as [|d ds Hd _ IH]; [reflexivity|].
  cbn [map count_digits length].
  rewrite (digit_val_digit_char d Hd), IH. reflexivity.
Qed.

(** What [int] makes of a row of digits: its value up to 4300 digits,
    [ValueError] beyond. *)
Lemma py_int_digits ds :
  ds <> [] -> Forall (fun d => (d < 10)%nat) ds ->
  py_int (map digit_char ds)
  = if Nat.leb (length ds) MAX_STR_DIGITS then Some (decimal_value ds) else None.
Proof.
  intros Hne F. destruct ds as [|d ds]; [contradiction|].
  inversion F as [|? ? Hd Hds]; subst.
  assert (E : map int_char (map digit_char (d :: ds)) = map digit_char (d :: ds)).
  { rewrite map_map. apply map_ext_Forall.
    eapply Forall_impl; [exact F|]. intros x. apply int_char_digit_char. }
  unfold py_int. rewrite E. unfold int_ascii. cbn [map skip_space].
  rewrite (digit_char_not_space d Hd). cbn [take_sign].
  destruct (digit_char_not_sign d Hd) as [-> ->].
  unfold int_digits.
  change (digit_char d :: map digit_char ds) with (map digit_char (d :: ds)).
  rewrite (count_digits_digits (d :: ds) F).
  destruct (Nat.leb (length (d :: ds)) MAX_STR_DIGITS); [|reflexivity].
  cbn [map digits_value].
  rewrite (digit_val_digit_char d Hd), (scan_digits_digits ds Hds).
  reflexivity.
Qed.

Lemma digit_char_plain d :
  (d < 10)%nat ->
  isspace (digit_char d) = false /\ lower_char (digit_char d) = digit_char d /\
  Ascii.eqb (digit_char d) "s" = false /\ Ascii.eqb (digit_char d) "m" = false /\
  Ascii.eqb (digit_char d) "h" = false.
Proof.
  intros Hd. do 10 (destruct d as [|d]; [repeat split; reflexivity|]). lia.
Qed.

(** A row of digits without a unit is what [int] makes of it. *)
Lemma parse_duration_digits ds :
  Forall (fun d => (d < 10)%nat) ds ->
  parse_duration (map digit_char ds) = py_int (map digit_char ds).
Proof.
  intros F. destruct ds as [|d0 ds0]; [reflexivity|].
  destruct (@List.exists_last _ (d0 :: ds0) ltac:(discriminate)) as (ds' & d & E).
  rewrite E in *. clear E d0 ds0.
  apply Forall_app in F as [F' Fd]. inversion Fd as [|? ? Hd _]; subst.
  destruct (digit_char_plain d Hd) as (Hsp & Hlow & Hs & Hm & Hh).
  assert (L : lstrip (map digit_char ds') = map digit_char ds').
  { destruct ds' as [|d' ds']; [reflexivity|]. inversion F' as [|? ? Hd' _]; subst.
    cbn [map lstrip]. destruct (digit_char_plain d' Hd') as (-> & _). reflexivity. }
  assert (Low : lower (map digit_char ds') = map digit_char ds').
  { unfold lower. rewrite map_map. apply map_ext_Forall.
    eapply Forall_impl; [exact F'|]. intros x Hx.
    destruct (digit_char_plain x Hx) as (_ & E & _). exact E. }
  rewrite map_app. cbn [map]. unfold parse_duration.
  rewrite (normal_form_snoc _ _ Hsp Hlow), L, Low.
  change (lit "s") with ["s"%char]. change (lit "m") with ["m"%char].
  change (lit "h") with ["h"%char].
  rewrite !endswith_snoc, Hs, Hm, Hh. reflexivity.
Qed.

End DurationValue.

(** X21.  A duration written as decimal digits is read in base ten: up
    to 4300 digits, the digits alone, or followed by [s], give their value
    in seconds, followed by [m] sixty times and followed by [h] 3600 times
    their value; a longer row of digits does not parse. *)
Theorem duration_value (ds : list nat) :
  ds <> [] ->
  Forall (fun d => (d < 10)%nat) ds ->
  ((length ds <= MAX_STR_DIGITS)%nat ->
   parse_duration (map digit_char ds) = Some (decimal_value ds)
   /\ parse_duration (map digit_char ds ++ lit "s") = Some (decimal_value ds)
   /\ parse_duration (map digit_char ds ++ lit "m") = Some (decimal_value ds * 60)
   /\ parse_duration (map digit_char ds ++ lit "h") = Some (decimal_value ds * 3600))
  /\ ((MAX_STR_DIGITS < length ds)%nat ->
      parse_duration (map digit_char ds) = None
      /\ parse_duration (map digit_char ds ++ lit "s") = None
      /\ parse_duration (map digit_char ds ++ lit "m") = None
      /\ parse_duration (map digit_char ds ++ lit "h") = None).
Proof.
  intros Hne F. pose proof (py_int_digits ds Hne F) as H.
  assert (L : lstrip (map digit_char ds) = map digit_char ds).
  { destruct ds as [|d ds]; [contradiction|]. inversion F; subst.
    cbn [map lstrip].
    assert (E : isspace (digit_char d) = false)
      by (do 10 (destruct d as [|d]; [reflexivity|]); lia).
    rewrite E. reflexivity. }
  rewrite (parse_duration_digits ds F).
  rewrite parse_duration_s, parse_duration_m, parse_duration_h, L, H.
  split.
  - intros Hlen. destruct (Nat.leb_spec (length ds) MAX_STR_DIGITS); [|lia].
    repeat split.
  - intros Hlen. destruct (Nat.leb_spec (length ds) MAX_STR_DIGITS); [lia|].
    repeat split.
Qed.

Lemma duration_value_witness :
  parse_duration (lit "90" ++ lit "m") = Some 5400.
Proof.
  destruct (duration_value [9; 0]%nat) as [H _].
  - discriminate.
  - repeat constructor.
  - destruct H as (_ & _ & H & _); [unfold MAX_STR_DIGITS; simpl; lia | exact H].
Defined.
